(** * node-iiif: the IIIF parameter interpreter of [lib/transform.js]

    A shallow embedding of the validators and of the [Operations] class,
    followed by the properties of the specification that were checked
    against it.

    Conventions of the embedding.
    - A JavaScript string is a [string]: a sequence of 8-bit code units.
    - A JavaScript number is [NaN] or an exact rational ([JS.number]);
      binary64 rounding, overflow to Infinity and the sign of zero are
      outside the model.
    - A method of [Operations] is a function from the interpreter state to
      a completion (normal or thrown) together with the state reached, so
      that whatever a call did before throwing stays visible. *)

From Stdlib Require Import Bool Arith ZArith QArith Qround Qabs Qpower Qreduction.
From Stdlib Require Import List Ascii String Lia.
Import ListNotations.

Close Scope Q_scope.
Local Open Scope string_scope.

(* ================================================================== *)
(** * Characters and strings *)
(* ================================================================== *)

Module Str.

Definition code (c : ascii) : nat := nat_of_ascii c.

(** [\d] *)
Definition is_digit (c : ascii) : bool :=
  (48 <=? code c)%nat && (code c <=? 57)%nat.

(** [\s], as far as it reaches into 8-bit code units: TAB, LF, VT, FF,
    CR, space and NBSP. *)
Definition is_space (c : ascii) : bool :=
  ((9 <=? code c)%nat && (code c <=? 13)%nat)
  || (code c =? 32)%nat || (code c =? 160)%nat.

(** A line terminator ([.] matches everything else). *)
Definition is_line_terminator (c : ascii) : bool :=
  (code c =? 10)%nat || (code c =? 13)%nat.

Definition all_digits (s : string) : bool :=
  forallb is_digit (list_ascii_of_string s).

(** The longest prefix of [s] whose characters satisfy [p], and what
    follows it. *)
Fixpoint span (p : ascii -> bool) (s : string) : string * string :=
  match s with
  | EmptyString => (EmptyString, EmptyString)
  | String c r =>
      if p c then let (a, b) := span p r in (String c a, b)
      else (EmptyString, s)
  end.

Definition is_empty (s : string) : bool :=
  match s with EmptyString => true | _ => false end.

(** A non-empty run of decimal digits. *)
Definition digits (s : string) : Prop := s <> "" /\ all_digits s = true.

(** [r] is where a run of [p] ends: at the end of the string, or at a
    character outside [p]. *)
Definition stops (p : ascii -> bool) (r : string) : Prop :=
  match r with
  | EmptyString => True
  | String c _ => p c = false
  end.

(** [Array.prototype.join] *)
Fixpoint join (sep : string) (l : list string) : string :=
  match l with
  | [] => ""
  | [x] => x
  | x :: r => x ++ sep ++ join sep r
  end.

(** [s] without the prefix [p], when it starts with it. *)
Fixpoint strip_prefix (p s : string) : option string :=
  match p, s with
  | EmptyString, _ => Some s
  | String a p', String b s' =>
      if Ascii.eqb a b then strip_prefix p' s' else None
  | String _ _, EmptyString => None
  end.

End Str.

(* ================================================================== *)
(** * Regular expressions *)
(* ================================================================== *)

Module Regex.

(** What one pattern character can stand for. *)
Inductive cclass : Type :=
| CChar (c : ascii)      (* the character itself *)
| CDigit                 (* \d *)
| CDot.                  (* . : anything but a line terminator *)

Definition in_class (p : cclass) (c : ascii) : bool :=
  match p with
  | CChar a => Ascii.eqb a c
  | CDigit => Str.is_digit c
  | CDot => negb (Str.is_line_terminator c)
  end.

Inductive regex : Type :=
| Void
| Eps
| Sym (p : cclass)
| Cat (r1 r2 : regex)
| Alt (r1 r2 : regex)
| Star (r : regex).

Definition Opt (r : regex) : regex := Alt r Eps.
Definition Plus (r : regex) : regex := Cat r (Star r).

(** A sequence and a choice of several expressions, nested to the right
    as the parser nests them, and the sequence of the characters of a
    literal. *)
Fixpoint seq (l : list regex) : regex :=
  match l with
  | [] => Eps
  | [r] => r
  | r :: l' => Cat r (seq l')
  end.

Fixpoint alts (l : list regex) : regex :=
  match l with
  | [] => Void
  | [r] => r
  | r :: l' => Alt r (alts l')
  end.

Definition chars (s : string) : list regex :=
  map (fun c => Sym (CChar c)) (list_ascii_of_string s).

Definition lit (s : string) : regex := seq (chars s).

(** ** Parsing a pattern source

    The fragment of the pattern syntax the validators are written in:
    literal characters, [\d], identity escapes such as [\!] and [\.],
    [.], groups [( )] and [(?: )], alternation and the postfix
    quantifiers [?], [+] and [*]. *)

Definition is_alnum (c : ascii) : bool :=
  let n := Str.code c in
  Str.is_digit c
  || ((65 <=? n)%nat && (n <=? 90)%nat)
  || ((97 <=? n)%nat && (n <=? 122)%nat).

Definition quantified (a : regex) (s : string) : regex * string :=
  match s with
  | String "?" r => (Opt a, r)
  | String "+" r => (Plus a, r)
  | String "*" r => (Star a, r)
  | _ => (a, s)
  end.

Fixpoint parse_alt (fuel : nat) (s : string) : option (regex * string) :=
  match fuel with
  | O => None
  | S f =>
      match parse_seq f s with
      | Some (r, String "|" rest) =>
          match parse_alt f rest with
          | Some (r', rest') => Some (Alt r r', rest')
          | None => None
          end
      | other => other
      end
  end
with parse_seq (fuel : nat) (s : string) : option (regex * string) :=
  match fuel with
  | O => None
  | S f =>
      match s with
      | EmptyString | String "|" _ | String ")" _ => Some (Eps, s)
      | _ =>
          match parse_atom f s with
          | Some (a, rest) =>
              let (q, rest') := quantified a rest in
              match parse_seq f rest' with
              | Some (Eps, rest'') => Some (q, rest'')
              | Some (r, rest'') => Some (Cat q r, rest'')
              | None => None
              end
          | None => None
          end
      end
  end
with parse_atom (fuel : nat) (s : string) : option (regex * string) :=
  match fuel with
  | O => None
  | S f =>
      match s with
      | String "(" (String "?" (String ":" rest)) =>
          match parse_alt f rest with
          | Some (r, String ")" rest') => Some (r, rest')
          | _ => None
          end
      | String "(" rest =>
          match parse_alt f rest with
          | Some (r, String ")" rest') => Some (r, rest')
          | _ => None
          end
      | String "\" (String c rest) =>
          if Ascii.eqb c "d" then Some (Sym CDigit, rest)
          else if is_alnum c then None
          else Some (Sym (CChar c), rest)
      | String "." rest => Some (Sym CDot, rest)
      | String c rest =>
          if existsb (Ascii.eqb c) (list_ascii_of_string "?+*^$[]{}\")
          then None
          else Some (Sym (CChar c), rest)
      | EmptyString => None
      end
  end.

(** [new RegExp(src)] for a source of the shape [^atom$], the one
    [validator] builds: the result is the atom, to be matched against
    the whole input.  Any other source is refused ([None]). *)
Definition RegExp (src : string) : option regex :=
  match src with
  | String "^" body =>
      match parse_atom (S (String.length body)) body with
      | Some (r, "$") => Some r
      | _ => None
      end
  | _ => None
  end.

(** ** Matching by derivatives *)

Fixpoint nullable (r : regex) : bool :=
  match r with
  | Void => false
  | Eps => true
  | Sym _ => false
  | Cat r1 r2 => nullable r1 && nullable r2
  | Alt r1 r2 => nullable r1 || nullable r2
  | Star _ => true
  end.

Fixpoint deriv (c : ascii) (r : regex) : regex :=
  match r with
  | Void => Void
  | Eps => Void
  | Sym p => if in_class p c then Eps else Void
  | Cat r1 r2 =>
      if nullable r1
      then Alt (Cat (deriv c r1) r2) (deriv c r2)
      else Cat (deriv c r1) r2
  | Alt r1 r2 => Alt (deriv c r1) (deriv c r2)
  | Star r1 => Cat (deriv c r1) (Star r1)
  end.

Fixpoint matches (r : regex) (s : string) : bool :=
  match s with
  | EmptyString => nullable r
  | String c s' => matches (deriv c r) s'
  end.

(** [re.test(v)] for an anchored expression.  The expressions of this
    fragment have no back-reference and no look-around, so that the
    search of the engine succeeds exactly when the whole input is in the
    language of the expression. *)
Definition test (re : regex) (v : string) : bool := matches re v.

(** ** The language of an expression *)

Inductive Lang : regex -> string -> Prop :=
| LEps : Lang Eps ""
| LSym p c : in_class p c = true -> Lang (Sym p) (String c "")
| LCat r1 r2 s1 s2 : Lang r1 s1 -> Lang r2 s2 -> Lang (Cat r1 r2) (s1 ++ s2)
| LAltL r1 r2 s : Lang r1 s -> Lang (Alt r1 r2) s
| LAltR r1 r2 s : Lang r2 s -> Lang (Alt r1 r2) s
| LStarNil r : Lang (Star r) ""
| LStarCons r s1 s2 :
    Lang r s1 -> Lang (Star r) s2 -> Lang (Star r) (s1 ++ s2).

End Regex.

(* ================================================================== *)
(** * JavaScript values and the built-ins the program calls *)
(* ================================================================== *)

Module JS.

(** A number: [NaN] or a finite value, kept in lowest terms. *)
Inductive number : Type :=
| NaN
| Fin (q : Q).

Definition fin (q : Q) : number := Fin (Qred q).
Definition of_Z (z : Z) : number := Fin (inject_Z z).

Inductive value : Type :=
| Undefined
| Null
| Num (n : number).

(** ToNumber, on the values of the model. *)
Definition ToNumber (v : value) : number :=
  match v with
  | Undefined => NaN
  | Null => of_Z 0
  | Num n => n
  end.

Definition isNaN (n : number) : bool :=
  match n with NaN => true | Fin _ => false end.

(** [a * b] *)
Definition mul (a b : number) : number :=
  match a, b with
  | Fin x, Fin y => fin (x * y)%Q
  | _, _ => NaN
  end.

(** [a - b] *)
Definition sub (a b : number) : number :=
  match a, b with
  | Fin x, Fin y => fin (x - y)%Q
  | _, _ => NaN
  end.

(** [a / d] for a positive literal [d] (the program divides by [100.0]
    and by [2] only). *)
Definition div_lit (a : number) (d : positive) : number :=
  match a with
  | Fin x => fin (x / inject_Z (Zpos d))%Q
  | NaN => NaN
  end.

(** [a > b] and [a <= b]: false as soon as one side is NaN. *)
Definition gt (a b : number) : bool :=
  match a, b with
  | Fin x, Fin y => negb (Qle_bool x y)
  | _, _ => false
  end.

Definition le (a b : number) : bool :=
  match a, b with
  | Fin x, Fin y => Qle_bool x y
  | _, _ => false
  end.

(** [a === b] on numbers: NaN equals nothing. *)
Definition num_eq (a b : number) : bool :=
  match a, b with
  | Fin x, Fin y => Qeq_bool x y
  | _, _ => false
  end.

(** [v === 0]: only a number can be strictly equal to [0]. *)
Definition is_zero (v : value) : bool :=
  match v with
  | Num n => num_eq n (of_Z 0)
  | _ => false
  end.

(** [v > 0], through ToNumber. *)
Definition is_positive (v : value) : bool := gt (ToNumber v) (of_Z 0).

Module Math.

Definition min (a b : number) : number :=
  match a, b with
  | Fin x, Fin y => if Qle_bool x y then Fin x else Fin y
  | _, _ => NaN
  end.

Definition abs (a : number) : number :=
  match a with
  | Fin x => fin (Qabs x)
  | NaN => NaN
  end.

Definition floor (a : number) : number :=
  match a with
  | Fin x => of_Z (Qfloor x)
  | NaN => NaN
  end.

(** [Math.round]: the nearest integer, halves going up. *)
Definition round (a : number) : number :=
  match a with
  | Fin x => of_Z (Qfloor (x + (1 # 2))%Q)
  | NaN => NaN
  end.

End Math.

(** ** [Number(string)]

    StringToNumber: surrounding white space is dropped, the empty
    string is [0], then come the prefixed integer literals [0x], [0o],
    [0b] and the signed decimal literal with an optional fraction and
    exponent; everything else is [NaN].  The literal [Infinity] is not
    covered: no string the program converts can spell it. *)

Definition digit_val (c : ascii) : Z := Z.of_nat (Str.code c) - 48.

(** Value of a hexadecimal digit, if it is one. *)
Definition hex_val (c : ascii) : option Z :=
  let n := Str.code c in
  if Str.is_digit c then Some (digit_val c)
  else if ((97 <=? n)%nat && (n <=? 102)%nat)%bool
       then Some (Z.of_nat n - 87)%Z
  else if ((65 <=? n)%nat && (n <=? 70)%nat)%bool
       then Some (Z.of_nat n - 55)%Z
  else None.

(** Value of [s] read in [base], most significant digit first; [None]
    when [s] is empty or has a character that is not a digit of the
    base. *)
Fixpoint radix_from (base acc : Z) (s : string) : option Z :=
  match s with
  | EmptyString => Some acc
  | String c r =>
      match hex_val c with
      | Some d => if (d <? base)%Z then radix_from base (base * acc + d) r
                  else None
      | None => None
      end
  end.

Definition radix_value (base : Z) (s : string) : option Z :=
  if Str.is_empty s then None else radix_from base 0 s.

(** Value of a run of decimal digits. *)
Fixpoint digits_from (acc : Z) (s : string) : Z :=
  match s with
  | EmptyString => acc
  | String c r => digits_from (10 * acc + digit_val c) r
  end.

Definition digits_value (s : string) : Z := digits_from 0 s.

Definition trim_start (s : string) : string := snd (Str.span Str.is_space s).

Fixpoint trim_end (s : string) : string :=
  match s with
  | EmptyString => EmptyString
  | String c r =>
      match trim_end r with
      | EmptyString => if Str.is_space c then EmptyString else String c EmptyString
      | r' => String c r'
      end
  end.

(** A sign, if there is one, and what follows. *)
Definition signed (s : string) : Z * string :=
  match s with
  | String c r =>
      if Ascii.eqb c "+" then (1%Z, r)
      else if Ascii.eqb c "-" then ((-1)%Z, r)
      else (1%Z, s)
  | EmptyString => (1%Z, s)
  end.

(** The exponent part: nothing, or [e]/[E], a sign and digits. *)
Definition exponent (s : string) : option Z :=
  match s with
  | EmptyString => Some 0%Z
  | String c r =>
      if (Ascii.eqb c "e" || Ascii.eqb c "E")%bool then
        let (sg, ds) := signed r in
        if (negb (Str.is_empty ds) && Str.all_digits ds)%bool
        then Some (sg * digits_value ds)%Z
        else None
      else None
  end.

(** An unsigned decimal literal: digits, an optional dot and fraction
    digits (at least one digit in all), an optional exponent. *)
Definition decimal_literal (s : string) : option Q :=
  let (ip, r1) := Str.span Str.is_digit s in
  let (fp, r2) :=
    match r1 with
    | String c r =>
        if Ascii.eqb c "." then Str.span Str.is_digit r
        else (EmptyString, r1)
    | EmptyString => (EmptyString, r1)
    end in
  if (Str.is_empty ip && Str.is_empty fp)%bool then None
  else
    match exponent r2 with
    | Some e =>
        Some (inject_Z (digits_value (ip ++ fp))
              * Qpower (inject_Z 10) (e - Z.of_nat (String.length fp)))%Q
    | None => None
    end.

(** The base announced by [0x], [0o] or [0b], and the digits after
    it. *)
Definition radix_prefix (s : string) : option (Z * string) :=
  match s with
  | String z (String p r) =>
      if negb (Ascii.eqb z "0") then None
      else if (Ascii.eqb p "x" || Ascii.eqb p "X")%bool then Some (16%Z, r)
      else if (Ascii.eqb p "o" || Ascii.eqb p "O")%bool then Some (8%Z, r)
      else if (Ascii.eqb p "b" || Ascii.eqb p "B")%bool then Some (2%Z, r)
      else None
  | _ => None
  end.

Definition Number (s : string) : number :=
  let t := trim_end (trim_start s) in
  if Str.is_empty t then of_Z 0
  else
    match radix_prefix t with
    | Some (base, r) =>
        match radix_value base r with
        | Some z => of_Z z
        | None => NaN
        end
    | None =>
        let (sg, u) := signed t in
        match decimal_literal u with
        | Some q => fin (inject_Z sg * q)%Q
        | None => NaN
        end
    end.

(** ** ToString of a number, for template literals

    Decimal digits for an integer, with a minus sign when negative, and
    [NaN]; other numbers have no finite decimal rendering in general and
    are rendered as [NaN] as well (the one number the program renders is
    a result of [Math.round]). *)

Fixpoint digits_of (fuel : nat) (n : N) (acc : string) : string :=
  match fuel with
  | O => acc
  | S f =>
      let d := ascii_of_N (48 + N.modulo n 10) in
      if (n <? 10)%N then String d acc
      else digits_of f (N.div n 10) (String d acc)
  end.

Definition N_to_string (n : N) : string :=
  digits_of (S (N.to_nat (N.log2 n))) n "".

Definition to_string (a : number) : string :=
  match a with
  | NaN => "NaN"
  | Fin q =>
      let r := Qred q in
      match Qden r with
      | xH =>
          match Qnum r with
          | Zneg p => String "-" (N_to_string (Npos p))
          | z => N_to_string (Z.to_N z)
          end
      | _ => "NaN"
      end
  end.

(** ** String methods with the patterns the program uses *)

(** [s[0] === c] *)
Definition starts_with (c : ascii) (s : string) : bool :=
  match s with
  | String a _ => Ascii.eqb a c
  | EmptyString => false
  end.

(** [s.replace(/^!/, '')] *)
Definition drop_bang (s : string) : string :=
  match s with
  | String c r => if Ascii.eqb c "!" then r else s
  | EmptyString => s
  end.

(** [s.match(/^pct:([C]+)/)] for a character class [C]: the text
    captured by the group ([RegExp.$1]) when the match succeeds. *)
Definition match_pct (cls : ascii -> bool) (s : string) : option string :=
  match Str.strip_prefix "pct:" s with
  | Some r =>
      let run := fst (Str.span cls r) in
      if Str.is_empty run then None else Some run
  | None => None
  end.

(** Length of the match of [\s*,\s*] that starts at the head of [s]. *)
Definition separator_at (s : string) : option nat :=
  let (ws1, r1) := Str.span Str.is_space s in
  match r1 with
  | String c r2 =>
      if Ascii.eqb c "," then
        let (ws2, _) := Str.span Str.is_space r2 in
        Some (String.length ws1 + 1 + String.length ws2)%nat
      else None
  | EmptyString => None
  end.

(** The scan of [String.prototype.split]: [cur] is the piece being
    collected and [skip] counts the characters of a separator that was
    found and is still to be passed over. *)
Fixpoint split_scan (s cur : string) (skip : nat) : list string :=
  match s with
  | EmptyString => [cur]
  | String c r =>
      match skip with
      | S k => split_scan r cur k
      | O =>
          match separator_at s with
          | Some n => cur :: split_scan r "" (Nat.pred n)
          | None => split_scan r (cur ++ String c "") 0
          end
      end
  end.

(** [s.split(/\s*,\s*/)] *)
Definition split (s : string) : list string := split_scan s "" 0.

(** [a[i]] *)
Definition index {A} (inj : A -> value) (a : list A) (i : nat) : value :=
  match nth_error a i with
  | Some x => inj x
  | None => Undefined
  end.

End JS.

(* ================================================================== *)
(** * The image pipeline *)
(* ================================================================== *)

(** Modelled from the spec: the image pipeline that [Operations] drives is
    the external collaborator of section 6 (the [sharp] package, required
    by the source and not part of it).  It is taken as the append-only,
    ordered record of the operations invoked on it, together with the two
    options [region] reads back, [widthPre] and [heightPre]: they start at
    [-1] and hold the size of the crop once [extract] was invoked ("update
    tracked dims to the post-crop width/height if a crop occurred").  The
    collaborator's own checking of its arguments is not part of the
    model. *)
Module Sharp.

Inductive fit : Type := cover | inside.

Module Region.
Record t : Type :=
  { left : JS.value; top : JS.value; width : JS.value; height : JS.value }.
End Region.

Module Resize.
Record t : Type :=
  { width : JS.value; height : JS.value; fit : Sharp.fit }.
End Resize.

Inductive directive : Type :=
| extract (params : Region.t)
| resize (params : Resize.t)
| rotate (angle : JS.number)
| flop
| grayscale
| threshold
| toFormat (format : string).

Record t : Type :=
  { calls : list directive; widthPre : JS.value; heightPre : JS.value }.

(** [Sharp({ limitInputPixels: false })] *)
Definition create : t :=
  {| calls := [];
     widthPre := JS.Num (JS.of_Z (-1));
     heightPre := JS.Num (JS.of_Z (-1)) |}.

(** [pipeline.d(...)]: the pipeline after one more operation. *)
Definition invoke (d : directive) (p : t) : t :=
  match d with
  | extract params =>
      {| calls := calls p ++ [d];
         widthPre := Region.width params;
         heightPre := Region.height params |}
  | _ =>
      {| calls := calls p ++ [d];
         widthPre := widthPre p;
         heightPre := heightPre p |}
  end.

End Sharp.

(* ================================================================== *)
(** * lib/transform.js *)
(* ================================================================== *)

Module Transform.

(** ** Errors and completions *)

Inductive exn : Type :=
| IIIFError (message : string)
| SyntaxError (pattern : string).

Inductive completion (A : Type) : Type :=
| Normal (a : A)
| Throw (e : exn).
Arguments Normal {A} a.
Arguments Throw {A} e.

(** ** Validators *)

(** Integer RegEx: the literal ['\\d+']. *)
Definition IR : string := "\d+".

(** Float RegEx: the literal ['\\d+(?:\.\\d+)?'].  In a string literal
    [\\] is a backslash and [\.] is a plain dot, so the string holds an
    unescaped [.]. *)
Definition FR : string := "\d+(?:.\d+)?".

(** The parameter kinds [validate] is called with. *)
Inductive param : Type := Quality | Format | Region | Size | Rotation.

Definition name (type : param) : string :=
  match type with
  | Quality => "quality"
  | Format => "format"
  | Region => "region"
  | Size => "size"
  | Rotation => "rotation"
  end.

Definition Validators (type : param) : list string + string :=
  match type with
  | Quality => inl ["color"; "gray"; "bitonal"; "default"]
  | Format => inl ["jpg"; "tif"; "gif"; "png"; "webp"]
  | Region =>
      inl ["full"; "square";
           "pct:" ++ FR ++ "," ++ FR ++ "," ++ FR ++ "," ++ FR;
           IR ++ "," ++ IR ++ "," ++ IR ++ "," ++ IR]
  | Size =>
      inl ["full"; "max"; "pct:" ++ FR; IR ++ ","; "," ++ IR;
           "\!?" ++ IR ++ "," ++ IR]
  | Rotation => inr ("\!?" ++ FR)
  end.

Definition pattern (type : param) : string :=
  let result :=
    match Validators type with
    | inl alternatives => Str.join "|" alternatives
    | inr single => single
    end in
  "^(" ++ result ++ ")$".

Definition validator (type : param) : option Regex.regex :=
  Regex.RegExp (pattern type).

Definition validate (type : param) (v : string) : completion bool :=
  match validator type with
  | Some re =>
      if negb (Regex.test re v)
      then Throw (IIIFError ("Invalid " ++ name type ++ ": " ++ v))
      else Normal true
  | None => Throw (SyntaxError (pattern type))
  end.

(** ** class Operations *)

Module Operations.

Record Dimensions : Type := { width : JS.number; height : JS.number }.

(** The fields of [this]. *)
Record t : Type := { dims : Dimensions; pipeline : Sharp.t }.

Definition constructor (dims : Dimensions) : t :=
  {| dims := dims; pipeline := Sharp.create |}.

(** A method body: it runs on [this] and completes, normally or by
    throwing, in a state. *)
Definition M (A : Type) : Type := t -> completion A * t.

Definition ret {A} (a : A) : M A := fun this => (Normal a, this).

Definition throw {A} (e : exn) : M A := fun this => (Throw e, this).

Definition bind {A B} (m : M A) (k : A -> M B) : M B :=
  fun this =>
    match m this with
    | (Normal a, this') => k a this'
    | (Throw e, this') => (Throw e, this')
    end.

Definition lift {A} (c : completion A) : M A := fun this => (c, this).

Definition get : M t := fun this => (Normal this, this).

(** [this.pipeline = this.pipeline.d(...)] *)
Definition pipe (d : Sharp.directive) : M unit :=
  fun this =>
    (Normal tt,
     {| dims := dims this; pipeline := Sharp.invoke d (pipeline this) |}).

Definition set_dims (d : Dimensions) : M unit :=
  fun this => (Normal tt, {| dims := d; pipeline := pipeline this |}).

(** The state after the pipeline took the operations [ds], in order. *)
Definition emit (ds : list Sharp.directive) (this : t) : t :=
  {| dims := dims this;
     pipeline := fold_left (fun p d => Sharp.invoke d p) ds (pipeline this) |}.

Declare Scope method_scope.
Delimit Scope method_scope with method.
Notation "x <- m ;; k" := (bind m (fun x => k))
  (at level 61, m at next level, right associativity) : method_scope.
Notation "m ;; k" := (bind m (fun _ => k))
  (at level 61, right associativity) : method_scope.
Local Open Scope method_scope.

Definition ifPositive (a : JS.value) (b : JS.number) : JS.number :=
  if JS.is_positive a then JS.ToNumber a else b.

(** The class [[\d,]] of the pattern [region] dispatches on. *)
Definition digit_or_comma (c : ascii) : bool :=
  Str.is_digit c || Ascii.eqb c ",".

Definition zero_area : exn :=
  IIIFError "Region width and height must both be > 0".

Definition zero_size : exn :=
  IIIFError "Resize width and height must both be > 0".

Definition zero : JS.value := JS.Num (JS.of_Z 0).

Definition _regionSquare (dims : Dimensions) : M unit :=
  if negb (JS.num_eq (width dims) (height dims)) then
    let side := JS.Math.min (width dims) (height dims) in
    let offset :=
      JS.Math.abs
        (JS.Math.floor (JS.div_lit (JS.sub (width dims) (height dims)) 2)) in
    let params :=
      if JS.gt (width dims) (height dims) then
        {| Sharp.Region.left := JS.Num offset; Sharp.Region.top := zero;
           Sharp.Region.width := JS.Num side;
           Sharp.Region.height := JS.Num side |}
      else
        {| Sharp.Region.left := zero; Sharp.Region.top := JS.Num offset;
           Sharp.Region.width := JS.Num side;
           Sharp.Region.height := JS.Num side |} in
    pipe (Sharp.extract params)
  else ret tt.

(** The [params] object of [_regionXYWH]: the argument is a string
    still to be split, or the array of numbers [_regionPct] passes. *)
Definition xywh_params (v : string + list JS.number) : Sharp.Region.t :=
  let v :=
    match v with
    | inl s => map JS.Number (JS.split s)
    | inr a => a
    end in
  {| Sharp.Region.left := JS.index JS.Num v 0;
     Sharp.Region.top := JS.index JS.Num v 1;
     Sharp.Region.width := JS.index JS.Num v 2;
     Sharp.Region.height := JS.index JS.Num v 3 |}.

Definition _regionXYWH (v : string + list JS.number) : M unit :=
  let params := xywh_params v in
  if JS.is_zero (Sharp.Region.width params)
     || JS.is_zero (Sharp.Region.height params)
  then throw zero_area
  else pipe (Sharp.extract params).

(** The array [[x, y, w, h]] that [_regionPct] computes. *)
Definition pct_pixels (v : string) (dims : Dimensions) : list JS.number :=
  let a := map (fun pct => JS.div_lit (JS.Number pct) 100) (JS.split v) in
  let x := JS.index JS.Num a 0 in
  let y := JS.index JS.Num a 1 in
  let w := JS.index JS.Num a 2 in
  let h := JS.index JS.Num a 3 in
  let across val := JS.Math.round (JS.mul (width dims) (JS.ToNumber val)) in
  let down val := JS.Math.round (JS.mul (height dims) (JS.ToNumber val)) in
  [across x; down y; across w; down h].

Definition _regionPct (v : string) (dims : Dimensions) : M unit :=
  _regionXYWH (inr (pct_pixels v dims)).

Definition _sizeWH (v : string + list JS.value) : M unit :=
  let fit :=
    match v with
    | inl s => if JS.starts_with "!" s then Sharp.inside else Sharp.cover
    | inr _ => Sharp.cover
    end in
  let v :=
    match v with
    | inl s =>
        map (fun val => if Str.is_empty val then JS.Null
                        else JS.Num (JS.Number val))
            (JS.split (JS.drop_bang s))
    | inr a => a
    end in
  let params :=
    {| Sharp.Resize.fit := fit;
       Sharp.Resize.width := JS.index id v 0;
       Sharp.Resize.height := JS.index id v 1 |} in
  if JS.is_zero (Sharp.Resize.width params)
     || JS.is_zero (Sharp.Resize.height params)
  then throw zero_size
  else pipe (Sharp.resize params).

Definition _sizePct (v : string) (dims : Dimensions) : M unit :=
  let pct := JS.Number v in
  if JS.isNaN pct || JS.le pct (JS.of_Z 0)
  then throw (IIIFError ("Invalid resize %: " ++ v))
  else
    let width := JS.Math.round (JS.mul (width dims) (JS.div_lit pct 100)) in
    _sizeWH (inl (JS.to_string width ++ ",")).

Definition region (v : string) : M unit :=
  lift (validate Region v) ;;
  (if v =? "full" then ret tt
   else if v =? "square" then
     this <- get ;; _regionSquare (dims this)
   else
     match JS.match_pct digit_or_comma v with
     | Some captured => this <- get ;; _regionPct captured (dims this)
     | None => _regionXYWH (inl v)
     end) ;;
  this <- get ;;
  set_dims
    {| width := ifPositive (Sharp.widthPre (pipeline this))
                           (width (dims this));
       height := ifPositive (Sharp.heightPre (pipeline this))
                            (height (dims this)) |}.

Definition size (v : string) : M unit :=
  lift (validate Size v) ;;
  if (v =? "full") || (v =? "max") then ret tt
  else
    match JS.match_pct Str.is_digit v with
    | Some captured => this <- get ;; _sizePct captured (dims this)
    | None => _sizeWH (inl v)
    end.

Definition rotation (v : string) : M unit :=
  lift (validate Rotation v) ;;
  if v =? "0" then ret tt
  else
    (if JS.starts_with "!" v then pipe Sharp.flop else ret tt) ;;
    let value := JS.Number (JS.drop_bang v) in
    if JS.isNaN value
    then throw (IIIFError ("Invalid rotation value: " ++ v))
    else pipe (Sharp.rotate value).

Definition quality (v : string) : M unit :=
  lift (validate Quality v) ;;
  if (v =? "color") || (v =? "default") then ret tt
  else if v =? "gray" then pipe Sharp.grayscale
  else if v =? "bitonal" then pipe Sharp.threshold
  else ret tt.

Definition format (v : string) : M unit :=
  lift (validate Format v) ;;
  pipe (Sharp.toFormat v).

End Operations.

End Transform.

(* ================================================================== *)
(** * The grammars as the specification words them *)
(* ================================================================== *)

Module Grammar.

(** [I]: a non-negative integer. *)
Definition integer (s : string) : bool :=
  negb (Str.is_empty s) && Str.all_digits s.

(** [F]: a non-negative decimal, integer or integer.fraction. *)
Definition decimal (s : string) : bool :=
  let (ip, r) := Str.span Str.is_digit s in
  negb (Str.is_empty ip)
  && match r with
     | EmptyString => true
     | String c fp => Ascii.eqb c "." && integer fp
     end.

(** The fields between the commas of [s]. *)
Fixpoint fields (s : string) : list string :=
  match s with
  | EmptyString => [""]
  | String c r =>
      if Ascii.eqb c "," then "" :: fields r
      else
        match fields r with
        | f :: fs => String c f :: fs
        | [] => [String c ""]
        end
  end.

Definition one_of (l : list string) (v : string) : bool :=
  existsb (String.eqb v) l.

(** [!?]: what follows the optional mark. *)
Definition unmarked (s : string) : string :=
  match s with
  | String c r => if Ascii.eqb c "!" then r else s
  | EmptyString => s
  end.

Definition accepts (type : Transform.param) (v : string) : bool :=
  match type with
  | Transform.Quality => one_of ["color"; "gray"; "bitonal"; "default"] v
  | Transform.Format => one_of ["jpg"; "tif"; "gif"; "png"; "webp"] v
  | Transform.Region =>
      one_of ["full"; "square"] v
      || match Str.strip_prefix "pct:" v with
         | Some r =>
             match fields r with
             | [x; y; w; h] => decimal x && decimal y && decimal w && decimal h
             | _ => false
             end
         | None =>
             match fields v with
             | [x; y; w; h] => integer x && integer y && integer w && integer h
             | _ => false
             end
         end
  | Transform.Size =>
      one_of ["full"; "max"] v
      || match Str.strip_prefix "pct:" v with
         | Some r => decimal r
         | None =>
             match fields v with
             | [w; h] =>
                 (integer w && Str.is_empty h)
                 || (Str.is_empty w && integer h)
                 || (integer (unmarked w) && integer h)
             | _ => false
             end
         end
  | Transform.Rotation => decimal (unmarked v)
  end.

(** The number a decimal [F] denotes: its digits as an integer over the
    power of ten of its fraction length. *)
Definition decimal_value (s : string) : Q :=
  let (ip, r) := Str.span Str.is_digit s in
  match r with
  | String _ fp =>
      (inject_Z (JS.digits_value (ip ++ fp))
       / inject_Z (10 ^ Z.of_nat (String.length fp)))%Q
  | EmptyString => inject_Z (JS.digits_value ip)
  end.

End Grammar.

(* ================================================================== *)
(** * What the module exports, and shapes of values and states *)
(* ================================================================== *)

Module Exports.

(** [module.exports.Qualities] and [module.exports.Formats]. *)
Definition Qualities : list string + string :=
  Transform.Validators Transform.Quality.

Definition Formats : list string + string :=
  Transform.Validators Transform.Format.

End Exports.

Module Shape.

(** What [FR] matches: digits, then possibly one character that is not a
    line terminator and digits again. *)
Definition loose (s : string) : Prop :=
  exists a,
    Str.digits a
    /\ (s = a
        \/ exists c b,
             Str.is_line_terminator c = false /\ Str.digits b
             /\ s = a ++ String c b).






End Shape.

(* ================================================================== *)
(** * Properties of the matcher *)
(* ================================================================== *)

Section RegexFacts.

Import Regex.

Lemma append_nil_r (s : string) : s ++ "" = s.
Proof. induction s as [|c s IH]; simpl; [reflexivity | now rewrite IH]. Qed.

Lemma append_assoc (a b c : string) : (a ++ b) ++ c = a ++ (b ++ c).
Proof. induction a as [|x a IH]; simpl; [reflexivity | now rewrite IH]. Qed.

Lemma append_eq_nil (a b : string) : a ++ b = "" -> a = "" /\ b = "".
Proof. destruct a; simpl; [auto | discriminate]. Qed.

Lemma append_eq_cons (a b : string) c s :
  a ++ b = String c s ->
  (a = "" /\ b = String c s) \/ (exists a', a = String c a' /\ s = a' ++ b).
Proof.
  destruct a as [|x a]; simpl; intros H.
  - left; auto.
  - right. inversion H; subst. now exists a.
Qed.

Lemma nullable_Lang r : nullable r = true <-> Lang r "".
Proof.
  split.
  - induction r; simpl; intros H; try discriminate.
    + constructor.
    + apply andb_true_iff in H as [H1 H2].
      change "" with ("" ++ ""). constructor; auto.
    + apply orb_true_iff in H as [H|H]; [apply LAltL | apply LAltR]; auto.
    + constructor.
  - intros H. remember "" as s eqn:E.
    induction H; simpl; subst; try discriminate; auto.
    + apply append_eq_nil in E as [-> ->].
      rewrite IHLang1, IHLang2; auto.
    + rewrite IHLang; auto.
    + rewrite IHLang; auto using orb_true_r.
Qed.

Lemma Lang_star_cons r c s :
  Lang (Star r) (String c s) ->
  exists s1 s2, s = s1 ++ s2 /\ Lang r (String c s1) /\ Lang (Star r) s2.
Proof.
  intros H. remember (Star r) as r' eqn:Er. remember (String c s) as t eqn:Et.
  induction H; try discriminate.
  inversion Er; subst r0.
  apply append_eq_cons in Et as [[-> ->] | [a' [-> ->]]].
  - apply IHLang2; auto.
  - exists a', s2. auto.
Qed.

Local Ltac lang_inv :=
  match goal with
  | H : Lang Void _ |- _ => inversion H
  | H : Lang Eps _ |- _ => inversion H; subst; clear H
  | H : Lang (Sym _) _ |- _ => inversion H; subst; clear H
  | H : Lang (Cat _ _) _ |- _ => inversion H; subst; clear H
  | H : Lang (Alt _ _) _ |- _ => inversion H; subst; clear H
  end.

Local Ltac split_cons :=
  match goal with
  | H : _ ++ _ = String _ _ |- _ =>
      apply append_eq_cons in H as [[-> ->] | [? [-> ->]]]
  end.

Lemma Lang_cons_cat r1 r2 c s1 s2 :
  Lang r1 (String c s1) -> Lang r2 s2 -> Lang (Cat r1 r2) (String c (s1 ++ s2)).
Proof.
  intros H1 H2. change (String c (s1 ++ s2)) with (String c s1 ++ s2).
  now constructor.
Qed.

Lemma Lang_nil_cat r1 r2 s :
  Lang r1 "" -> Lang r2 s -> Lang (Cat r1 r2) s.
Proof.
  intros H1 H2. change s with ("" ++ s). now constructor.
Qed.

Lemma deriv_Lang r : forall c s, Lang (deriv c r) s <-> Lang r (String c s).
Proof.
  induction r; intros c s; simpl.
  - split; intros H; lang_inv.
  - split; intros H; lang_inv.
  - destruct (in_class p c) eqn:E; split; intros H; lang_inv.
    + now constructor.
    + constructor.
    + congruence.
  - destruct (nullable r1) eqn:N; split; intros H; lang_inv.
    + lang_inv. apply Lang_cons_cat; auto. now apply IHr1.
    + apply Lang_nil_cat; [now apply nullable_Lang | now apply IHr2].
    + split_cons.
      * apply LAltR. now apply IHr2.
      * apply LAltL. constructor; auto. now apply IHr1.
    + apply Lang_cons_cat; auto. now apply IHr1.
    + split_cons.
      * match goal with H : Lang r1 "" |- _ => apply nullable_Lang in H end.
        congruence.
      * constructor; auto. now apply IHr1.
  - split; intros H; lang_inv.
    + apply LAltL. now apply IHr1.
    + apply LAltR. now apply IHr2.
    + apply LAltL. now apply IHr1.
    + apply LAltR. now apply IHr2.
  - split; intros H.
    + lang_inv. change (String c (s1 ++ s2)) with (String c s1 ++ s2).
      constructor; auto. now apply IHr.
    + apply Lang_star_cons in H as [s1 [s2 [-> [H1 H2]]]].
      constructor; auto. now apply IHr.
Qed.

(** The matcher decides membership in the language. *)
Lemma matches_Lang : forall s r, matches r s = true <-> Lang r s.
Proof.
  induction s as [|c s IH]; intros r; simpl.
  - apply nullable_Lang.
  - rewrite IH. apply deriv_Lang.
Qed.

Lemma Lang_Opt_none r : Lang (Opt r) "".
Proof. apply LAltR. constructor. Qed.

Lemma Lang_Opt_some r s : Lang r s -> Lang (Opt r) s.
Proof. now apply LAltL. Qed.

(** One or more digits. *)
Lemma Lang_digits_star s :
  Str.all_digits s = true -> Lang (Star (Sym CDigit)) s.
Proof.
  unfold Str.all_digits.
  induction s as [|c s IH]; simpl; intros H.
  - constructor.
  - apply andb_true_iff in H as [Hc Hs].
    change (String c s) with (String c "" ++ s).
    constructor; auto. now constructor.
Qed.

Lemma Lang_digits_plus s :
  s <> "" -> Str.all_digits s = true -> Lang (Plus (Sym CDigit)) s.
Proof.
  unfold Str.all_digits. destruct s as [|c s]; [congruence|].
  simpl. intros _ H. apply andb_true_iff in H as [Hc Hs].
  change (String c s) with (String c "" ++ s).
  constructor; [now constructor | now apply Lang_digits_star].
Qed.

Lemma Lang_char c : Lang (Sym (CChar c)) (String c "").
Proof. constructor. simpl. apply Ascii.eqb_refl. Qed.

End RegexFacts.

(* ================================================================== *)
(** * Properties of the string built-ins on digit strings *)
(* ================================================================== *)

Section StringFacts.

Import Str.

Lemma digits_integer s : digits s <-> Grammar.integer s = true.
Proof.
  unfold digits, Grammar.integer. destruct s; simpl.
  - split; [intros [H _]; congruence | discriminate].
  - split; [intros [_ H]; exact H | intros H; split; [discriminate | exact H]].
Qed.

Lemma digits_cons s :
  digits s -> exists c r, s = String c r /\ Str.is_digit c = true
                          /\ Str.all_digits r = true.
Proof.
  intros [Hn Hd]. destruct s as [|c r]; [congruence|].
  unfold Str.all_digits in *. simpl in Hd.
  apply andb_true_iff in Hd as [Hc Hr]. eauto.
Qed.


Lemma digit_not_space c : Str.is_digit c = true -> Str.is_space c = false.
Proof.
  unfold Str.is_digit, Str.is_space. intros H.
  apply andb_true_iff in H as [H1 H2].
  apply Nat.leb_le in H1, H2.
  apply orb_false_iff; split; [apply orb_false_iff; split|].
  - apply andb_false_iff. right. apply Nat.leb_gt. lia.
  - apply Nat.eqb_neq. lia.
  - apply Nat.eqb_neq. lia.
Qed.

(** A digit differs from every character that is not one. *)
Lemma digit_neq c k :
  Str.is_digit c = true -> Str.is_digit k = false -> Ascii.eqb c k = false.
Proof.
  intros Hc Hk. destruct (Ascii.eqb_spec c k); [congruence | reflexivity].
Qed.


Lemma span_stops p r : stops p r -> Str.span p r = ("", r).
Proof. destruct r as [|c r]; simpl; [reflexivity | now intros ->]. Qed.

Lemma span_run p d r :
  forallb p (list_ascii_of_string d) = true -> stops p r ->
  Str.span p (d ++ r) = (d, r).
Proof.
  induction d as [|c d IH]; simpl; intros Hd Hr.
  - now apply span_stops.
  - apply andb_true_iff in Hd as [-> Hd]. now rewrite IH.
Qed.

Lemma span_digits d r :
  Str.all_digits d = true -> stops Str.is_digit r ->
  Str.span Str.is_digit (d ++ r) = (d, r).
Proof. apply span_run. Qed.

(** ** [split] *)

Lemma separator_at_digit c r :
  Str.is_digit c = true -> JS.separator_at (String c r) = None.
Proof.
  intros Hc. unfold JS.separator_at. simpl.
  rewrite (digit_not_space _ Hc).
  now rewrite (digit_neq c ",").
Qed.

Lemma split_scan_digits d : forall r cur,
  Str.all_digits d = true ->
  JS.split_scan (d ++ r) cur 0 = JS.split_scan r (cur ++ d) 0.
Proof.
  unfold Str.all_digits.
  induction d as [|c d IH]; simpl; intros r cur Hd.
  - now rewrite append_nil_r.
  - apply andb_true_iff in Hd as [Hc Hd].
    rewrite (separator_at_digit c (d ++ r) Hc).
    rewrite IH by assumption. now rewrite append_assoc.
Qed.

Lemma split_scan_comma r cur :
  stops Str.is_space r ->
  JS.split_scan ("," ++ r) cur 0 = cur :: JS.split_scan r "" 0.
Proof.
  intros Hr. change ("," ++ r) with (String "," r). cbn [JS.split_scan].
  unfold JS.separator_at. simpl.
  rewrite (span_stops _ _ Hr). reflexivity.
Qed.

Lemma stops_space_digits d r : digits d -> stops Str.is_space (d ++ r).
Proof.
  intros H. destruct (digits_cons _ H) as [c [d' [-> [Hc _]]]].
  simpl. now apply digit_not_space.
Qed.

Lemma split_last d : Str.all_digits d = true -> JS.split_scan d "" 0 = [d].
Proof.
  intros H. rewrite <- (append_nil_r d) at 1.
  now rewrite split_scan_digits.
Qed.

(** The pieces of [x,y,w,h]. *)
Lemma split_four x y w h :
  digits x -> digits y -> digits w -> digits h ->
  JS.split (x ++ "," ++ y ++ "," ++ w ++ "," ++ h) = [x; y; w; h].
Proof.
  intros Hx Hy Hw Hh. unfold JS.split.
  rewrite split_scan_digits by apply Hx.
  rewrite split_scan_comma by now apply stops_space_digits.
  rewrite split_scan_digits by apply Hy.
  rewrite split_scan_comma by now apply stops_space_digits.
  rewrite split_scan_digits by apply Hw.
  rewrite split_scan_comma
    by (rewrite <- (append_nil_r h); now apply stops_space_digits).
  rewrite split_last by apply Hh. reflexivity.
Qed.




End StringFacts.

(* ================================================================== *)
(** * Properties of [Number] *)
(* ================================================================== *)

Section NumberFacts.

Import Str.

Lemma Qred_inject_Z z : Qred (inject_Z z) = inject_Z z.
Proof.
  unfold Qred, inject_Z.
  pose proof (Z.ggcd_gcd z 1) as Hg.
  pose proof (Z.ggcd_correct_divisors z 1) as Hd.
  destruct (Z.ggcd z 1) as [g [aa bb]]. simpl in *.
  rewrite Z.gcd_1_r in Hg. subst g. destruct Hd as [Ha Hb].
  rewrite Z.mul_1_l in Ha, Hb. subst. reflexivity.
Qed.

Lemma fin_integer q z : (q == inject_Z z)%Q -> JS.fin q = JS.of_Z z.
Proof.
  intros H. unfold JS.fin, JS.of_Z. f_equal.
  rewrite (Qred_complete _ _ H). apply Qred_inject_Z.
Qed.

Lemma trim_start_digit c r :
  is_digit c = true -> JS.trim_start (String c r) = String c r.
Proof.
  intros Hc. unfold JS.trim_start. simpl.
  now rewrite (digit_not_space _ Hc).
Qed.

Lemma trim_start_digits d : digits d -> JS.trim_start d = d.
Proof.
  intros H. destruct (digits_cons _ H) as [c [r [-> [Hc _]]]].
  now apply trim_start_digit.
Qed.

(** Nothing is trimmed from a string that ends in a digit. *)
Lemma trim_end_digit_last s d :
  digits d -> JS.trim_end (s ++ d) = s ++ d.
Proof.
  intros H. induction s as [|c s IH].
  - simpl. destruct H as [_ H]. clear -H. unfold all_digits in H.
    induction d as [|c d IH]; simpl in *; [reflexivity|].
    apply andb_true_iff in H as [Hc Hd]. rewrite (IH Hd).
    destruct d; [now rewrite (digit_not_space _ Hc) | reflexivity].
  - simpl. rewrite IH.
    destruct (digits_cons _ H) as [x [r [-> _]]].
    destruct s; reflexivity.
Qed.

Lemma trim_digits d : digits d -> JS.trim_end (JS.trim_start d) = d.
Proof.
  intros H. rewrite (trim_start_digits _ H).
  apply (trim_end_digit_last "" d H).
Qed.

Lemma signed_digit c r :
  is_digit c = true -> JS.signed (String c r) = (1%Z, String c r).
Proof.
  intros Hc. unfold JS.signed.
  now rewrite (digit_neq c "+"), (digit_neq c "-").
Qed.

(** A character that is a digit or no letter at all is none of the
    letters that announce a base. *)
Lemma not_letter_neq p k :
  is_digit p = true \/ Regex.is_alnum p = false ->
  Regex.is_alnum k = true -> is_digit k = false -> Ascii.eqb p k = false.
Proof.
  intros Hp Hk Hd. destruct (Ascii.eqb_spec p k) as [->|]; [|reflexivity].
  destruct Hp; congruence.
Qed.

(** No base prefix in a string whose second character, if any, is a
    digit or no letter at all. *)
Lemma radix_prefix_none c r :
  match r with
  | EmptyString => True
  | String p _ => is_digit p = true \/ Regex.is_alnum p = false
  end ->
  JS.radix_prefix (String c r) = None.
Proof.
  destruct r as [|p r]; [reflexivity|]. intros Hp. unfold JS.radix_prefix.
  destruct (negb (Ascii.eqb c "0")); [reflexivity|].
  now rewrite !(not_letter_neq p) by (assumption || reflexivity).
Qed.

Lemma radix_prefix_digits d : digits d -> JS.radix_prefix d = None.
Proof.
  intros H. destruct (digits_cons _ H) as [c [r [-> [Hc Hr]]]].
  apply radix_prefix_none. destruct r as [|p r]; [exact I|]. left.
  unfold all_digits in Hr. simpl in Hr.
  now apply andb_true_iff in Hr as [Hp _].
Qed.

Lemma signed_digits d : digits d -> JS.signed d = (1%Z, d).
Proof.
  intros H. destruct (digits_cons _ H) as [c [r [-> [Hc Hr]]]].
  now apply signed_digit.
Qed.

Lemma is_empty_digits d : digits d -> is_empty d = false.
Proof.
  intros H. now destruct (digits_cons _ H) as [c [r [-> _]]].
Qed.

Lemma decimal_literal_digits d :
  digits d ->
  JS.decimal_literal d = Some (inject_Z (JS.digits_value d) * 1)%Q.
Proof.
  intros H. unfold JS.decimal_literal.
  rewrite <- (append_nil_r d) at 1.
  rewrite span_digits by (apply H || exact I).
  rewrite (is_empty_digits _ H), append_nil_r. reflexivity.
Qed.

(** A run of digits converts to the integer it spells. *)
Lemma Number_digits d :
  digits d -> JS.Number d = JS.of_Z (JS.digits_value d).
Proof.
  intros H. unfold JS.Number.
  rewrite (trim_digits _ H), (is_empty_digits _ H),
    (radix_prefix_digits _ H), (signed_digits _ H),
    (decimal_literal_digits _ H).
  apply fin_integer. ring.
Qed.

Lemma digit_val_range c : is_digit c = true -> (0 <= JS.digit_val c <= 9)%Z.
Proof.
  unfold is_digit, JS.digit_val. intros H.
  apply andb_true_iff in H as [H1 H2]. apply Nat.leb_le in H1, H2. lia.
Qed.

Lemma digits_from_nonneg s : forall acc,
  all_digits s = true -> (0 <= acc)%Z -> (0 <= JS.digits_from acc s)%Z.
Proof.
  unfold all_digits.
  induction s as [|c s IH];
    cbn [JS.digits_from forallb list_ascii_of_string]; intros acc H Ha.
  - exact Ha.
  - apply andb_true_iff in H as [Hc Hs]. apply IH; [exact Hs|].
    pose proof (digit_val_range _ Hc). lia.
Qed.

Lemma digits_value_nonneg s :
  all_digits s = true -> (0 <= JS.digits_value s)%Z.
Proof. intros H. apply digits_from_nonneg; [exact H | lia]. Qed.

Lemma power10_neg n :
  (Qpower (inject_Z 10) (0 - Z.of_nat n) == / inject_Z (10 ^ Z.of_nat n))%Q.
Proof.
  rewrite Z.sub_0_l, Qpower_opp.
  now rewrite Zpower_Qpower by apply Nat2Z.is_nonneg.
Qed.

Lemma decimal_literal_fraction a b :
  digits a -> digits b ->
  JS.decimal_literal (a ++ "." ++ b)
  = Some (inject_Z (JS.digits_value (a ++ b))
          * Qpower (inject_Z 10) (0 - Z.of_nat (String.length b)))%Q.
Proof.
  intros Ha Hb. unfold JS.decimal_literal.
  rewrite span_digits by (apply Ha || reflexivity).
  change ("." ++ b) with (String "." b). cbn [Ascii.eqb Bool.eqb].
  rewrite <- (append_nil_r b) at 1.
  rewrite span_digits by (apply Hb || exact I).
  destruct (digits_cons _ Ha) as [c [r [E _]]].
  rewrite E at 1. reflexivity.
Qed.

Lemma decimal_value_fraction a b :
  digits a -> digits b ->
  Grammar.decimal_value (a ++ "." ++ b)
  = (inject_Z (JS.digits_value (a ++ b))
     / inject_Z (10 ^ Z.of_nat (String.length b)))%Q.
Proof.
  intros Ha Hb. unfold Grammar.decimal_value.
  rewrite span_digits by (apply Ha || reflexivity). reflexivity.
Qed.

Lemma decimal_value_integer d :
  digits d -> Grammar.decimal_value d = inject_Z (JS.digits_value d).
Proof.
  intros H. unfold Grammar.decimal_value.
  rewrite <- (append_nil_r d) at 1.
  rewrite span_digits by (apply H || exact I). reflexivity.
Qed.

Lemma trim_fraction a b :
  digits a -> digits b ->
  JS.trim_end (JS.trim_start (a ++ "." ++ b)) = a ++ "." ++ b.
Proof.
  intros Ha Hb. destruct (digits_cons _ Ha) as [c [r [-> [Hc Hr]]]].
  cbn [append]. rewrite (trim_start_digit _ _ Hc).
  apply (trim_end_digit_last (String c (r ++ ".")) b) in Hb.
  cbn [append] in Hb. now rewrite append_assoc in Hb.
Qed.

Lemma radix_prefix_fraction a b :
  digits a -> JS.radix_prefix (a ++ "." ++ b) = None.
Proof.
  intros Ha. destruct (digits_cons _ Ha) as [c [r [-> [Hc Hr]]]].
  cbn [append]. apply radix_prefix_none.
  destruct r as [|p r]; cbn [append]; [now right | left].
  unfold all_digits in Hr. simpl in Hr.
  now apply andb_true_iff in Hr as [Hp _].
Qed.

Lemma signed_fraction a b :
  digits a -> JS.signed (a ++ "." ++ b) = (1%Z, a ++ "." ++ b).
Proof.
  intros Ha. destruct (digits_cons _ Ha) as [c [r [-> [Hc Hr]]]].
  cbn [append]. now apply signed_digit.
Qed.

(** A decimal [a.b] converts to the number it denotes. *)
Lemma Number_fraction a b :
  digits a -> digits b ->
  JS.Number (a ++ "." ++ b)
  = JS.fin (Grammar.decimal_value (a ++ "." ++ b)).
Proof.
  intros Ha Hb. unfold JS.Number.
  rewrite (decimal_value_fraction _ _ Ha Hb), (trim_fraction _ _ Ha Hb),
    (radix_prefix_fraction _ _ Ha), (signed_fraction _ _ Ha),
    (decimal_literal_fraction _ _ Ha Hb).
  replace (is_empty (a ++ "." ++ b)) with false
    by now destruct (digits_cons _ Ha) as [c [r [-> _]]].
  unfold JS.fin. f_equal. apply Qred_complete.
  rewrite power10_neg. unfold Qdiv. ring.
Qed.

Lemma Number_integer_decimal d :
  digits d -> JS.Number d = JS.fin (Grammar.decimal_value d).
Proof.
  intros H. rewrite (Number_digits _ H), (decimal_value_integer _ H).
  unfold JS.fin, JS.of_Z. now rewrite Qred_inject_Z.
Qed.

End NumberFacts.

(* ================================================================== *)
(** * The validators *)
(* ================================================================== *)

Section ValidatorFacts.

Import Regex Transform.

(** [\d+] and the optional fraction [(?:.\d+)?] of [FR], whose dot
    is the any-character dot. *)
Local Abbreviation D := (Plus (Sym CDigit)).
Local Abbreviation Frac := (Opt (seq [Sym CDot; Plus (Sym CDigit)])).
Local Abbreviation comma := (Sym (CChar ",")).

(** The expressions [validator] compiles. *)
Lemma validator_quality :
  validator Quality
  = Some (alts [lit "color"; lit "gray"; lit "bitonal"; lit "default"]).
Proof. reflexivity. Qed.

Lemma validator_format :
  validator Format
  = Some (alts [lit "jpg"; lit "tif"; lit "gif"; lit "png"; lit "webp"]).
Proof. reflexivity. Qed.

Lemma validator_region :
  validator Region
  = Some (alts [lit "full"; lit "square";
                seq (chars "pct:"
                     ++ [D; Frac; comma; D; Frac; comma;
                         D; Frac; comma; D; Frac]);
                seq [D; comma; D; comma; D; comma; D]]).
Proof. reflexivity. Qed.

Lemma validator_size :
  validator Size
  = Some (alts [lit "full"; lit "max";
                seq (chars "pct:" ++ [D; Frac]);
                seq [D; comma]; seq [comma; D];
                seq [Opt (Sym (CChar "!")); D; comma; D]]).
Proof. reflexivity. Qed.

Lemma validator_rotation :
  validator Rotation = Some (seq [Opt (Sym (CChar "!")); D; Frac]).
Proof. reflexivity. Qed.

End ValidatorFacts.

Section ValidateFacts.

Import Str Regex Transform.

Lemma validate_Lang type re v :
  validator type = Some re ->
  (validate type v = Normal true <-> Lang re v).
Proof.
  intros E. unfold validate, test. rewrite E, <- matches_Lang.
  destruct (matches re v); simpl; split; congruence.
Qed.

Lemma validate_rejects type re v :
  validator type = Some re -> ~ Lang re v ->
  validate type v = Throw (IIIFError ("Invalid " ++ name type ++ ": " ++ v)).
Proof.
  intros E H. unfold validate, test. rewrite E.
  destruct (matches re v) eqn:M; [|reflexivity].
  apply matches_Lang in M. contradiction.
Qed.

(** Every kind has a validator: [validate] never stops on the pattern. *)
Lemma validator_defined type : exists re, validator type = Some re.
Proof. destruct type; eexists; reflexivity. Qed.

Lemma Lang_D s : digits s -> Lang (Plus (Sym CDigit)) s.
Proof. intros [H1 H2]. now apply Lang_digits_plus. Qed.

Lemma Lang_comma r s :
  Lang r s -> Lang (Cat (Sym (CChar ",")) r) ("," ++ s).
Proof. intros H. constructor; [apply Lang_char | exact H]. Qed.

Lemma validate_region_pixels x y w h :
  digits x -> digits y -> digits w -> digits h ->
  validate Region (x ++ "," ++ y ++ "," ++ w ++ "," ++ h) = Normal true.
Proof.
  intros Hx Hy Hw Hh. apply (validate_Lang _ _ _ validator_region).
  cbn [alts seq]. do 3 apply LAltR.
  repeat (first [apply Lang_comma | apply Lang_D; assumption | constructor]).
  all: now apply Lang_D.
Qed.

End ValidateFacts.

(* ================================================================== *)
(** * region *)
(* ================================================================== *)

Section RegionFacts.

Import Str Transform Transform.Operations.


Lemma is_positive_of_Z z : JS.is_positive (JS.Num (JS.of_Z z)) = (0 <? z)%Z.
Proof.
  unfold JS.is_positive, JS.gt, JS.ToNumber, JS.of_Z.
  destruct (Z.ltb_spec 0 z) as [P|N].
  - destruct (Qle_bool (inject_Z z) (inject_Z 0)) eqn:E; [|reflexivity].
    apply Qle_bool_iff in E. rewrite <- Zle_Qle in E. lia.
  - replace (Qle_bool (inject_Z z) (inject_Z 0)) with true; [reflexivity|].
    symmetry. apply Qle_bool_iff. now rewrite <- Zle_Qle.
Qed.

Lemma ifPositive_of_Z z b :
  (0 < z)%Z -> ifPositive (JS.Num (JS.of_Z z)) b = JS.of_Z z.
Proof.
  intros H. unfold ifPositive. rewrite is_positive_of_Z.
  now apply Z.ltb_lt in H as ->.
Qed.




End RegionFacts.

Section PipelineFacts.

Import Transform Transform.Operations.

Lemma calls_invoke d p : Sharp.calls (Sharp.invoke d p) = (Sharp.calls p ++ [d])%list.
Proof. destruct d; reflexivity. Qed.

(** [emit] appends to the record of the pipeline, in order, and leaves
    the tracked dimensions alone. *)
Lemma calls_emit ds : forall this,
  Sharp.calls (pipeline (emit ds this))
  = (Sharp.calls (pipeline this) ++ ds)%list.
Proof.
  unfold emit. cbn [pipeline].
  induction ds as [|d ds IH]; intros this; cbn [fold_left].
  - now rewrite app_nil_r.
  - specialize (IH {| dims := dims this;
                      pipeline := Sharp.invoke d (pipeline this) |}).
    cbn [pipeline] in IH.
    now rewrite IH, calls_invoke, <- app_assoc.
Qed.

Lemma dims_emit ds this : dims (emit ds this) = dims this.
Proof. reflexivity. Qed.

Lemma emit_nil this : emit [] this = this.
Proof. now destruct this. Qed.

End PipelineFacts.

Section RegionCalls.

Import Str Transform Transform.Operations.

(** The rectangle [region] computes for a value in pixel or percentage
    form: the [params] that reach the zero test of [_regionXYWH]. *)
Lemma region_rectangle v this :
  validate Region v = Normal true -> v <> "full" -> v <> "square" ->
  let params :=
    match JS.match_pct digit_or_comma v with
    | Some captured => xywh_params (inr (pct_pixels captured (dims this)))
    | None => xywh_params (inl v)
    end in
  region v this
  = if JS.is_zero (Sharp.Region.width params)
       || JS.is_zero (Sharp.Region.height params)
    then (Throw zero_area, this)
    else (Normal tt,
          {| dims :=
               {| width := ifPositive (Sharp.Region.width params)
                                      (width (dims this));
                  height := ifPositive (Sharp.Region.height params)
                                       (height (dims this)) |};
             pipeline := Sharp.invoke (Sharp.extract params) (pipeline this) |}).
Proof.
  intros Hv Hf Hs params. unfold region, bind, lift. rewrite Hv.
  apply String.eqb_neq in Hf, Hs. rewrite Hf, Hs. subst params.
  destruct (JS.match_pct digit_or_comma v) as [captured|];
    unfold get, _regionPct, _regionXYWH;
    match goal with
    | |- context [xywh_params ?a] => generalize (xywh_params a)
    end;
    intros params;
    destruct (JS.is_zero (Sharp.Region.width params)
              || JS.is_zero (Sharp.Region.height params)); reflexivity.
Qed.

(** [v === 0] holds of the number zero and of nothing else. *)
Lemma is_zero_spec v :
  JS.is_zero v = true <-> exists q, v = JS.Num (JS.Fin q) /\ (q == 0)%Q.
Proof.
  unfold JS.is_zero, JS.num_eq, JS.of_Z. split.
  - destruct v as [| |[|q]]; try discriminate.
    intros H. apply Qeq_bool_iff in H. now exists q.
  - intros [q [-> H]]. now apply Qeq_bool_iff.
Qed.


End RegionCalls.

(* ================================================================== *)
(** * size *)
(* ================================================================== *)

Section SizeCalls.

Import Str Regex Transform Transform.Operations.

Lemma validate_size_width w :
  digits w -> validate Size (w ++ ",") = Normal true.
Proof.
  intros Hw. apply (validate_Lang _ _ _ validator_size).
  cbn [alts seq]. do 3 apply LAltR. apply LAltL.
  constructor; [now apply Lang_D | apply Lang_char].
Qed.

Lemma validate_size_height h :
  digits h -> validate Size ("," ++ h) = Normal true.
Proof.
  intros Hh. apply (validate_Lang _ _ _ validator_size).
  cbn [alts seq]. do 4 apply LAltR. apply LAltL.
  apply Lang_comma. now apply Lang_D.
Qed.

Lemma validate_size_both w h :
  digits w -> digits h -> validate Size (w ++ "," ++ h) = Normal true.
Proof.
  intros Hw Hh. apply (validate_Lang _ _ _ validator_size).
  cbn [alts seq]. do 5 apply LAltR.
  apply Lang_nil_cat; [apply Lang_Opt_none|].
  constructor; [now apply Lang_D|]. apply Lang_comma. now apply Lang_D.
Qed.

Lemma validate_size_inside w h :
  digits w -> digits h -> validate Size ("!" ++ w ++ "," ++ h) = Normal true.
Proof.
  intros Hw Hh. apply (validate_Lang _ _ _ validator_size).
  cbn [alts seq]. do 5 apply LAltR.
  constructor; [apply Lang_Opt_some, Lang_char|].
  constructor; [now apply Lang_D|]. apply Lang_comma. now apply Lang_D.
Qed.

Lemma starts_with_digit d r k :
  digits d -> is_digit k = false -> JS.starts_with k (d ++ r) = false.
Proof.
  intros H Hk. destruct (digits_cons _ H) as [c [d' [-> [Hc _]]]].
  cbn [append JS.starts_with]. now apply digit_neq.
Qed.

Lemma drop_bang_digit d r : digits d -> JS.drop_bang (d ++ r) = d ++ r.
Proof.
  intros H. destruct (digits_cons _ H) as [c [d' [-> [Hc _]]]].
  cbn [append JS.drop_bang]. now rewrite (digit_neq c "!").
Qed.


Local Abbreviation resized w h f this :=
  (Normal tt,
   emit [Sharp.resize {| Sharp.Resize.width := w; Sharp.Resize.height := h;
                         Sharp.Resize.fit := f |}] this).

Local Abbreviation int s := (JS.Num (JS.of_Z (JS.digits_value s))).





End SizeCalls.

(* ================================================================== *)
(** * rotation *)
(* ================================================================== *)

Section RotationCalls.

Import Str Regex Transform Transform.Operations.

Lemma span_spec p s :
  s = fst (span p s) ++ snd (span p s)
  /\ forallb p (list_ascii_of_string (fst (span p s))) = true.
Proof.
  induction s as [|c s [IH1 IH2]]; simpl; [auto|].
  destruct (p c) eqn:E; [|auto].
  destruct (span p s) as [a b]. simpl in *. rewrite E, <- IH1. auto.
Qed.

(** The two shapes of a decimal: digits, or digits, a dot and digits. *)
Lemma decimal_cases F :
  Grammar.decimal F = true ->
  digits F \/ exists a b, F = a ++ "." ++ b /\ digits a /\ digits b.
Proof.
  unfold Grammar.decimal.
  destruct (span_spec is_digit F) as [E H].
  destruct (span is_digit F) as [ip r]. cbn [fst snd] in *.
  intros D. apply andb_true_iff in D as [Hn D].
  assert (Hip : digits ip).
  { split; [now destruct ip | exact H]. }
  destruct r as [|c fp].
  - left. now rewrite E, append_nil_r.
  - right. apply andb_true_iff in D as [Hc Hfp].
    apply Ascii.eqb_eq in Hc. subst c.
    exists ip, fp. repeat split; try apply Hip; try assumption.
    + now apply digits_integer.
    + now apply digits_integer.
Qed.

Lemma Lang_decimal F :
  Grammar.decimal F = true ->
  Lang (Cat (Plus (Sym CDigit))
            (Opt (Cat (Sym CDot) (Plus (Sym CDigit))))) F.
Proof.
  intros H. destruct (decimal_cases _ H) as [D | [a [b [-> [Ha Hb]]]]].
  - rewrite <- (append_nil_r F).
    constructor; [now apply Lang_D | apply Lang_Opt_none].
  - constructor; [now apply Lang_D|]. apply Lang_Opt_some.
    constructor; [now constructor | now apply Lang_D].
Qed.

Lemma validate_rotation_decimal F :
  Grammar.decimal F = true -> validate Rotation F = Normal true.
Proof.
  intros H. apply (validate_Lang _ _ _ validator_rotation).
  cbn [seq]. apply Lang_nil_cat; [apply Lang_Opt_none|].
  now apply Lang_decimal.
Qed.

Lemma validate_rotation_mirrored F :
  Grammar.decimal F = true -> validate Rotation ("!" ++ F) = Normal true.
Proof.
  intros H. apply (validate_Lang _ _ _ validator_rotation).
  cbn [seq]. constructor; [apply Lang_Opt_some, Lang_char|].
  now apply Lang_decimal.
Qed.

(** The conversion of a decimal is the number it denotes, never NaN. *)
Lemma Number_decimal F :
  Grammar.decimal F = true ->
  JS.Number F = JS.fin (Grammar.decimal_value F).
Proof.
  intros H. destruct (decimal_cases _ H) as [D | [a [b [-> [Ha Hb]]]]].
  - now apply Number_integer_decimal.
  - now apply Number_fraction.
Qed.

Lemma decimal_digit_first F :
  Grammar.decimal F = true ->
  exists c r, F = String c r /\ is_digit c = true.
Proof.
  intros H. destruct (decimal_cases _ H) as [D | [a [b [-> [Ha Hb]]]]].
  - destruct (digits_cons _ D) as [c [r [-> [Hc _]]]]. eauto.
  - destruct (digits_cons _ Ha) as [c [r [-> [Hc _]]]].
    exists c, (r ++ "." ++ b). auto.
Qed.

(** What [rotation] does with a value that passed validation and is not
    the string [0]. *)
Lemma rotation_valid v this :
  validate Rotation v = Normal true -> v <> "0" ->
  rotation v this
  = let this' := if JS.starts_with "!" v then emit [Sharp.flop] this else this in
    let value := JS.Number (JS.drop_bang v) in
    if JS.isNaN value
    then (Throw (IIIFError ("Invalid rotation value: " ++ v)), this')
    else (Normal tt,
          emit ((if JS.starts_with "!" v then [Sharp.flop] else [])
                  ++ [Sharp.rotate value])%list this).
Proof.
  intros Hv Hz. unfold rotation, bind, lift. rewrite Hv.
  apply String.eqb_neq in Hz. rewrite Hz. cbv zeta.
  destruct (JS.starts_with "!" v), (JS.isNaN (JS.Number (JS.drop_bang v)));
    reflexivity.
Qed.

Lemma rotation_plain F this :
  Grammar.decimal F = true -> F <> "0" ->
  rotation F this
  = (Normal tt, emit [Sharp.rotate (JS.fin (Grammar.decimal_value F))] this).
Proof.
  intros H Hz.
  rewrite (rotation_valid _ _ (validate_rotation_decimal _ H) Hz). cbv zeta.
  destruct (decimal_digit_first _ H) as [c [r [E Hc]]].
  assert (JS.starts_with "!" F = false) as ->
      by (rewrite E; cbn [JS.starts_with]; now apply digit_neq).
  assert (JS.drop_bang F = F) as ->
      by (rewrite E; cbn [JS.drop_bang]; now rewrite (digit_neq c "!")).
  now rewrite (Number_decimal _ H).
Qed.

Lemma rotation_mirrored F this :
  Grammar.decimal F = true ->
  rotation ("!" ++ F) this
  = (Normal tt,
     emit [Sharp.flop; Sharp.rotate (JS.fin (Grammar.decimal_value F))] this).
Proof.
  intros H.
  rewrite (rotation_valid _ _ (validate_rotation_mirrored _ H))
    by discriminate.
  cbv zeta. change (JS.starts_with "!" ("!" ++ F)) with true.
  change (JS.drop_bang ("!" ++ F)) with F.
  now rewrite (Number_decimal _ H).
Qed.

Lemma emit_changes d ds this : emit (ds ++ [d])%list this <> this.
Proof.
  intros E.
  apply (f_equal (fun s => List.length (Sharp.calls (pipeline s)))) in E.
  rewrite calls_emit, !length_app in E. cbn [List.length] in E. lia.
Qed.

End RotationCalls.

(* ================================================================== *)
(** * The square crop on integer dimensions *)
(* ================================================================== *)

Section SquareFacts.

Import Str Transform Transform.Operations.

Lemma num_eq_of_Z a b : JS.num_eq (JS.of_Z a) (JS.of_Z b) = (a =? b)%Z.
Proof.
  unfold JS.num_eq, JS.of_Z. destruct (Z.eqb_spec a b) as [->|N].
  - apply Qeq_bool_refl.
  - destruct (Qeq_bool (inject_Z a) (inject_Z b)) eqn:E; [|reflexivity].
    apply Qeq_bool_iff in E. apply (proj1 (inject_Z_injective a b)) in E.
    congruence.
Qed.

Lemma gt_of_Z a b : JS.gt (JS.of_Z a) (JS.of_Z b) = (b <? a)%Z.
Proof.
  unfold JS.gt, JS.of_Z. destruct (Z.ltb_spec b a) as [L|G].
  - destruct (Qle_bool (inject_Z a) (inject_Z b)) eqn:E; [|reflexivity].
    apply Qle_bool_iff in E. rewrite <- Zle_Qle in E. lia.
  - replace (Qle_bool (inject_Z a) (inject_Z b)) with true; [reflexivity|].
    symmetry. apply Qle_bool_iff. now rewrite <- Zle_Qle.
Qed.

Lemma min_of_Z a b : JS.Math.min (JS.of_Z a) (JS.of_Z b) = JS.of_Z (Z.min a b).
Proof.
  unfold JS.Math.min, JS.of_Z.
  destruct (Qle_bool (inject_Z a) (inject_Z b)) eqn:E.
  - apply Qle_bool_iff in E. rewrite <- Zle_Qle in E.
    now rewrite Z.min_l.
  - destruct (Z.le_gt_cases a b) as [L|G].
    + rewrite Zle_Qle in L. apply Qle_bool_iff in L. congruence.
    + now rewrite Z.min_r by lia.
Qed.

Lemma sub_of_Z a b : JS.sub (JS.of_Z a) (JS.of_Z b) = JS.of_Z (a - b).
Proof.
  unfold JS.sub, JS.of_Z. apply fin_integer.
  unfold Z.sub. rewrite inject_Z_plus, inject_Z_opp. reflexivity.
Qed.

Lemma abs_of_Z a : JS.Math.abs (JS.of_Z a) = JS.of_Z (Z.abs a).
Proof. unfold JS.Math.abs, JS.of_Z. now apply fin_integer. Qed.

(** [Math.floor(a / 2)] on an integer is the floored quotient. *)
Lemma floor_half_of_Z a :
  JS.Math.floor (JS.div_lit (JS.of_Z a) 2) = JS.of_Z (a / 2).
Proof.
  unfold JS.Math.floor, JS.div_lit, JS.of_Z, JS.fin. f_equal. f_equal.
  rewrite (Qfloor_comp _ _ (Qred_correct _)).
  unfold Qfloor, Qdiv, Qmult, Qinv, inject_Z. simpl. now rewrite Z.mul_1_r.
Qed.

(** What [_regionSquare] does on a [w] by [h] image, in integers: the
    offset is the absolute value of the floored half difference. *)
Lemma regionSquare_integers w h this :
  let offset := JS.Num (JS.of_Z (Z.abs ((w - h) / 2))) in
  let side := JS.Num (JS.of_Z (Z.min w h)) in
  _regionSquare {| width := JS.of_Z w; height := JS.of_Z h |} this
  = if (w =? h)%Z then (Normal tt, this)
    else (Normal tt,
          emit [Sharp.extract
                  (if (h <? w)%Z
                   then {| Sharp.Region.left := offset; Sharp.Region.top := zero;
                           Sharp.Region.width := side;
                           Sharp.Region.height := side |}
                   else {| Sharp.Region.left := zero; Sharp.Region.top := offset;
                           Sharp.Region.width := side;
                           Sharp.Region.height := side |})] this).
Proof.
  intros offset side. unfold _regionSquare. cbn [width height].
  rewrite num_eq_of_Z, gt_of_Z, min_of_Z, sub_of_Z, floor_half_of_Z, abs_of_Z.
  destruct (w =? h)%Z; reflexivity.
Qed.

(** The offset is [floor(|w - h| / 2)] when the image is wider than tall
    or the difference is even, and one more when the image is taller than
    wide by an odd number. *)
Lemma square_offset_cases w h :
  ((h <= w \/ Z.even (w - h) = true ->
    Z.abs ((w - h) / 2) = Z.abs (w - h) / 2)
   /\ (w < h -> Z.even (w - h) = false ->
       Z.abs ((w - h) / 2) = Z.abs (w - h) / 2 + 1))%Z.
Proof.
  split.
  - intros [L | E].
    + rewrite !Z.abs_eq; [reflexivity | lia |].
      apply Z.div_pos; lia.
    + apply Z.even_spec in E as [k E]. rewrite E.
      rewrite (Z.mul_comm 2 k), Z.div_mul by lia.
      rewrite Z.abs_mul, (Z.abs_eq 2) by lia.
      now rewrite Z.div_mul by lia.
  - intros L O.
    rewrite <- Z.negb_odd in O. apply negb_false_iff in O.
    apply Z.odd_spec in O as [k O]. rewrite O.
    replace ((2 * k + 1) / 2)%Z with k
      by (apply (Z.div_unique_pos _ 2 k 1); lia).
    rewrite (Z.abs_neq (2 * k + 1)), (Z.abs_neq k) by lia.
    replace (- (2 * k + 1) / 2)%Z with (- k - 1)%Z
      by (apply (Z.div_unique_pos _ 2 (- k - 1) 1); lia).
    lia.
Qed.

End SquareFacts.

(* ================================================================== *)
(** * The declared grammar against the validators *)
(* ================================================================== *)

Section GrammarFacts.

Import Str Regex Transform.

Lemma strip_prefix_spec p : forall s r,
  strip_prefix p s = Some r -> s = p ++ r.
Proof.
  induction p as [|a p IH]; intros s r; cbn [strip_prefix append].
  - congruence.
  - destruct s as [|b s]; [discriminate|].
    destruct (Ascii.eqb_spec a b) as [->|]; [|discriminate].
    intros H. now rewrite (IH _ _ H).
Qed.

Lemma fields_cons s : exists f fs, Grammar.fields s = f :: fs.
Proof.
  destruct s as [|c s]; cbn [Grammar.fields]; [eauto|].
  destruct (Ascii.eqb c ","); [eauto|].
  destruct (Grammar.fields s); eauto.
Qed.

Lemma join_head sep c f fs :
  join sep (String c f :: fs) = String c (join sep (f :: fs)).
Proof. destruct fs; reflexivity. Qed.

Lemma fields_join s : join "," (Grammar.fields s) = s.
Proof.
  induction s as [|c s IH]; cbn [Grammar.fields]; [reflexivity|].
  destruct (fields_cons s) as [f [fs E]]. rewrite E in *.
  destruct (Ascii.eqb_spec c ",") as [->|N].
  - change (join "," ("" :: f :: fs)) with ("," ++ join "," (f :: fs)).
    now rewrite IH.
  - now rewrite join_head, IH.
Qed.

Lemma fields_four s x y w h :
  Grammar.fields s = [x; y; w; h] -> s = x ++ "," ++ y ++ "," ++ w ++ "," ++ h.
Proof. intros E. now rewrite <- (fields_join s), E. Qed.

Lemma fields_two s w h : Grammar.fields s = [w; h] -> s = w ++ "," ++ h.
Proof. intros E. now rewrite <- (fields_join s), E. Qed.

Lemma Lang_cat_assoc r1 r2 r3 s :
  Lang (Cat (Cat r1 r2) r3) s -> Lang (Cat r1 (Cat r2 r3)) s.
Proof.
  intros H. inversion H as [| |? ? s12 s3 H12 H3| | | |]; subst.
  inversion H12 as [| |? ? s1 s2 H1 H2| | | |]; subst.
  rewrite append_assoc. now repeat constructor.
Qed.

(** A decimal followed by what the rest of the pattern matches. *)
Lemma Lang_decimal_then F r s :
  Grammar.decimal F = true -> Lang r s ->
  Lang (Cat (Plus (Sym CDigit))
            (Cat (Opt (Cat (Sym CDot) (Plus (Sym CDigit)))) r)) (F ++ s).
Proof.
  intros HF Hs. apply Lang_cat_assoc. constructor; [|exact Hs].
  now apply Lang_decimal.
Qed.

Lemma Lang_char_then c r s :
  Lang r s -> Lang (Cat (Sym (CChar c)) r) (String c s).
Proof.
  intros H. change (String c s) with (String c "" ++ s).
  constructor; [apply Lang_char | exact H].
Qed.

Lemma validate_region_percent x y w h :
  Grammar.decimal x = true -> Grammar.decimal y = true ->
  Grammar.decimal w = true -> Grammar.decimal h = true ->
  validate Region ("pct:" ++ x ++ "," ++ y ++ "," ++ w ++ "," ++ h)
  = Normal true.
Proof.
  intros Hx Hy Hw Hh. apply (validate_Lang _ _ _ validator_region).
  cbn [alts seq chars map list_ascii_of_string app].
  do 2 apply LAltR. apply LAltL.
  cbn [append]. do 4 apply Lang_char_then.
  repeat (apply Lang_decimal_then; [assumption|apply Lang_comma]).
  now apply Lang_decimal.
Qed.

Lemma validate_size_percent p :
  Grammar.decimal p = true -> validate Size ("pct:" ++ p) = Normal true.
Proof.
  intros Hp. apply (validate_Lang _ _ _ validator_size).
  cbn [alts seq chars map list_ascii_of_string app].
  do 2 apply LAltR. apply LAltL.
  cbn [append]. do 4 apply Lang_char_then.
  now apply Lang_decimal.
Qed.

Lemma digits_decimal d : digits d -> Grammar.decimal d = true.
Proof.
  intros H. unfold Grammar.decimal.
  rewrite <- (append_nil_r d) at 1.
  rewrite span_digits by (apply H || exact I).
  now rewrite (is_empty_digits _ H).
Qed.

Lemma one_of_In l v : Grammar.one_of l v = true -> In v l.
Proof.
  unfold Grammar.one_of. intros H. apply existsb_exists in H as [x [Hx E]].
  apply String.eqb_eq in E. now subst.
Qed.

Lemma unmarked_cases v :
  (exists r, v = "!" ++ r /\ Grammar.unmarked v = r) \/ Grammar.unmarked v = v.
Proof.
  destruct v as [|c r]; [now right|]. cbn [Grammar.unmarked].
  destruct (Ascii.eqb_spec c "!") as [->|]; [left; now exists r | now right].
Qed.

(** Every string of the declared grammar passes [validate]. *)
Lemma validate_complete type v :
  Grammar.accepts type v = true -> validate type v = Normal true.
Proof.
  destruct type; cbn [Grammar.accepts]; intros H.
  - apply one_of_In in H. cbn [In] in H.
    repeat (destruct H as [<-|H]; [reflexivity|]). contradiction.
  - apply one_of_In in H. cbn [In] in H.
    repeat (destruct H as [<-|H]; [reflexivity|]). contradiction.
  - apply orb_true_iff in H as [H|H].
    { apply one_of_In in H. cbn [In] in H.
      repeat (destruct H as [<-|H]; [reflexivity|]). contradiction. }
    destruct (strip_prefix "pct:" v) as [r|] eqn:P.
    + apply strip_prefix_spec in P. subst v.
      destruct (Grammar.fields r) as [|x [|y [|w [|h [|]]]]] eqn:E;
        try discriminate.
      apply fields_four in E. subst r.
      apply andb_true_iff in H as [H Hh]. apply andb_true_iff in H as [H Hw].
      apply andb_true_iff in H as [Hx Hy].
      now apply validate_region_percent.
    + destruct (Grammar.fields v) as [|x [|y [|w [|h [|]]]]] eqn:E;
        try discriminate.
      apply fields_four in E. subst v.
      apply andb_true_iff in H as [H Hh]. apply andb_true_iff in H as [H Hw].
      apply andb_true_iff in H as [Hx Hy].
      apply validate_region_pixels; now apply digits_integer.
  - apply orb_true_iff in H as [H|H].
    { apply one_of_In in H. cbn [In] in H.
      repeat (destruct H as [<-|H]; [reflexivity|]). contradiction. }
    destruct (strip_prefix "pct:" v) as [r|] eqn:P.
    + apply strip_prefix_spec in P. subst v.
      now apply validate_size_percent.
    + destruct (Grammar.fields v) as [|w [|h [|]]] eqn:E; try discriminate.
      apply fields_two in E. subst v.
      apply orb_true_iff in H as [H|H]; [apply orb_true_iff in H as [H|H]|].
      * apply andb_true_iff in H as [Hw Hh]. destruct h; [|discriminate].
        apply validate_size_width. now apply digits_integer.
      * apply andb_true_iff in H as [Hw Hh]. destruct w; [|discriminate].
        apply validate_size_height. now apply digits_integer.
      * apply andb_true_iff in H as [Hw Hh].
        destruct (unmarked_cases w) as [[r [-> U]] | U]; rewrite U in Hw.
        -- apply validate_size_inside; now apply digits_integer.
        -- apply validate_size_both; now apply digits_integer.
  - destruct (unmarked_cases v) as [[r [-> U]] | U]; rewrite U in H.
    + now apply validate_rotation_mirrored.
    + now apply validate_rotation_decimal.
Qed.

Lemma Lang_lit s : forall v, s <> "" -> Lang (lit s) v -> v = s.
Proof.
  unfold lit, chars. induction s as [|c s IH]; intros v Hs H; [congruence|].
  destruct s as [|c' s].
  - cbn in H. inversion H; subst.
    match goal with E : in_class _ _ = true |- _ =>
      apply Ascii.eqb_eq in E; now subst end.
  - change (Lang (Cat (Sym (CChar c))
                      (seq (map (fun c => Sym (CChar c))
                                (list_ascii_of_string (String c' s))))) v) in H.
    inversion H as [| |? ? s1 s2 H1 H2| | | |]; subst.
    inversion H1; subst.
    match goal with E : in_class _ _ = true |- _ =>
      apply Ascii.eqb_eq in E; subst end.
    cbn [append]. f_equal. apply IH; [discriminate | exact H2].
Qed.

Lemma Lang_alt_lit s r v :
  s <> "" -> Lang (Alt (lit s) r) v -> v = s \/ Lang r v.
Proof.
  intros Hs H. inversion H; subst; [left; now apply Lang_lit | now right].
Qed.

(** For [quality] and [format], whose patterns are lists of keywords,
    [validate] accepts the declared grammar and nothing else. *)
Lemma validate_keywords type v :
  type = Quality \/ type = Format ->
  (validate type v = Normal true <-> Grammar.accepts type v = true).
Proof.
  intros T. split; [|apply validate_complete].
  destruct T as [-> | ->]; intros H.
  - apply (validate_Lang _ _ _ validator_quality) in H. cbn [alts] in H.
    repeat (apply Lang_alt_lit in H; [|discriminate];
            destruct H as [-> | H]; [reflexivity|]).
    apply Lang_lit in H; [now subst | discriminate].
  - apply (validate_Lang _ _ _ validator_format) in H. cbn [alts] in H.
    repeat (apply Lang_alt_lit in H; [|discriminate];
            destruct H as [-> | H]; [reflexivity|]).
    apply Lang_lit in H; [now subst | discriminate].
Qed.

End GrammarFacts.

(* ================================================================== *)
(** * Percentages written as integers *)
(* ================================================================== *)

Section PercentFacts.

Import Str Transform Transform.Operations.

Lemma forallb_string_app p a b :
  forallb p (list_ascii_of_string (a ++ b))
  = forallb p (list_ascii_of_string a) && forallb p (list_ascii_of_string b).
Proof.
  induction a as [|c a IH]; simpl; [reflexivity|].
  rewrite IH. apply andb_assoc.
Qed.

Lemma digits_digit_or_comma d :
  all_digits d = true ->
  forallb digit_or_comma (list_ascii_of_string d) = true.
Proof.
  unfold all_digits, digit_or_comma.
  induction d as [|c d IH]; simpl; [reflexivity|].
  intros H. apply andb_true_iff in H as [-> H]. now rewrite IH.
Qed.

(** On [pct:x,y,w,h] written with integers the capture is everything
    after the colon. *)
Lemma match_pct_four x y w h :
  digits x -> digits y -> digits w -> digits h ->
  JS.match_pct digit_or_comma ("pct:" ++ x ++ "," ++ y ++ "," ++ w ++ "," ++ h)
  = Some (x ++ "," ++ y ++ "," ++ w ++ "," ++ h).
Proof.
  intros Hx Hy Hw Hh.
  set (rest := x ++ "," ++ y ++ "," ++ w ++ "," ++ h).
  assert (E : span digit_or_comma rest = (rest, "")).
  { rewrite <- (append_nil_r rest) at 1. apply span_run; [|exact I].
    unfold rest.
    rewrite !forallb_string_app.
    rewrite (digits_digit_or_comma x (proj2 Hx)),
      (digits_digit_or_comma y (proj2 Hy)),
      (digits_digit_or_comma w (proj2 Hw)),
      (digits_digit_or_comma h (proj2 Hh)).
    reflexivity. }
  unfold JS.match_pct.
  change (strip_prefix "pct:" ("pct:" ++ rest)) with (Some rest).
  cbv beta iota zeta. rewrite E. cbn [fst]. unfold rest.
  destruct (digits_cons _ Hx) as [c [r [-> _]]]. reflexivity.
Qed.

Lemma match_pct_one p :
  digits p -> JS.match_pct is_digit ("pct:" ++ p) = Some p.
Proof.
  intros Hp.
  assert (E : span is_digit p = (p, "")).
  { rewrite <- (append_nil_r p) at 1. apply span_digits; [apply Hp | exact I]. }
  unfold JS.match_pct.
  change (strip_prefix "pct:" ("pct:" ++ p)) with (Some p).
  cbv beta iota zeta. rewrite E. cbn [fst]. now rewrite (is_empty_digits _ Hp).
Qed.

(** The rectangle computed from integer percentages. *)
Lemma percent_params x y w h d :
  digits x -> digits y -> digits w -> digits h ->
  let pct s := JS.div_lit (JS.of_Z (JS.digits_value s)) 100 in
  xywh_params (inr (pct_pixels (x ++ "," ++ y ++ "," ++ w ++ "," ++ h) d))
  = {| Sharp.Region.left := JS.Num (JS.Math.round (JS.mul (width d) (pct x)));
       Sharp.Region.top := JS.Num (JS.Math.round (JS.mul (height d) (pct y)));
       Sharp.Region.width := JS.Num (JS.Math.round (JS.mul (width d) (pct w)));
       Sharp.Region.height := JS.Num (JS.Math.round (JS.mul (height d) (pct h))) |}.
Proof.
  intros Hx Hy Hw Hh pct.
  unfold pct_pixels, xywh_params. rewrite split_four by assumption.
  cbn [map JS.index nth_error JS.ToNumber].
  now rewrite !Number_digits by assumption.
Qed.

(** The percentage form with integer percentages: each one is taken of
    the tracked width or height and rounded, and the result goes through
    the zero test and to [extract] as in the pixel form. *)
Lemma region_percent_integers x y w h this :
  digits x -> digits y -> digits w -> digits h ->
  let pct s := JS.div_lit (JS.of_Z (JS.digits_value s)) 100 in
  let across s := JS.Math.round (JS.mul (width (dims this)) (pct s)) in
  let down s := JS.Math.round (JS.mul (height (dims this)) (pct s)) in
  let params :=
    {| Sharp.Region.left := JS.Num (across x);
       Sharp.Region.top := JS.Num (down y);
       Sharp.Region.width := JS.Num (across w);
       Sharp.Region.height := JS.Num (down h) |} in
  region ("pct:" ++ x ++ "," ++ y ++ "," ++ w ++ "," ++ h) this
  = if JS.is_zero (JS.Num (across w)) || JS.is_zero (JS.Num (down h))
    then (Throw zero_area, this)
    else (Normal tt,
          {| dims :=
               {| width := ifPositive (JS.Num (across w)) (width (dims this));
                  height := ifPositive (JS.Num (down h)) (height (dims this)) |};
             pipeline := Sharp.invoke (Sharp.extract params) (pipeline this) |}).
Proof.
  intros Hx Hy Hw Hh pct across down params.
  rewrite region_rectangle; try discriminate.
  - rewrite match_pct_four, percent_params by assumption. reflexivity.
  - apply validate_region_percent; now apply digits_decimal.
Qed.

End PercentFacts.

(* ================================================================== *)
(** * Numbers rendered in a template literal and read back *)
(* ================================================================== *)

Section RenderFacts.

Import Str Transform Transform.Operations.













End RenderFacts.

(* ================================================================== *)
(** * Calls that throw *)
(* ================================================================== *)

Section ThrowFacts.

Import Str Transform Transform.Operations.

Lemma bind_throw {A B} (m : M A) (k : A -> M B) this e this' :
  bind m k this = (Throw e, this') ->
  m this = (Throw e, this')
  \/ exists a this1, m this = (Normal a, this1) /\ k a this1 = (Throw e, this').
Proof.
  unfold bind. destruct (m this) as [[a|e1] this1]; intros H.
  - right. eauto.
  - left. now inversion H.
Qed.

Lemma lift_result {A} (c : completion A) this c' this' :
  lift c this = (c', this') -> c' = c /\ this' = this.
Proof. unfold lift. intros H. now inversion H. Qed.

Lemma _regionXYWH_throw a this e this' :
  _regionXYWH a this = (Throw e, this') -> this' = this.
Proof.
  unfold _regionXYWH, throw, pipe.
  destruct (_ || _); intros H; now inversion H.
Qed.

Lemma _regionSquare_normal d this :
  exists this', _regionSquare d this = (Normal tt, this').
Proof.
  unfold _regionSquare, ret, pipe. destruct (negb _); eauto.
Qed.

Lemma _sizeWH_throw a this e this' :
  _sizeWH a this = (Throw e, this') -> this' = this.
Proof.
  unfold _sizeWH, throw, pipe.
  destruct (_ || _); intros H; now inversion H.
Qed.

Lemma _sizePct_throw a d this e this' :
  _sizePct a d this = (Throw e, this') -> this' = this.
Proof.
  unfold _sizePct, throw.
  destruct (_ || _); [intros H; now inversion H | apply _sizeWH_throw].
Qed.

(** A [region], [size], [quality] or [format] call that throws has done
    nothing to the pipeline or to the tracked dimensions. *)
Lemma region_throw_unchanged v this e this' :
  region v this = (Throw e, this') -> this' = this.
Proof.
  unfold region. intros H.
  apply bind_throw in H as [H | [a [this1 [H1 H]]]].
  { exact (proj2 (lift_result _ _ _ _ H)). }
  apply lift_result in H1 as [_ ->].
  apply bind_throw in H as [H | [a' [this2 [_ H]]]].
  - destruct (v =? "full"); [discriminate|].
    destruct (v =? "square").
    + unfold bind, get in H.
      destruct (_regionSquare_normal (dims this) this) as [t' E].
      rewrite E in H. discriminate.
    + destruct (JS.match_pct digit_or_comma v).
      * unfold bind, get, _regionPct in H. now apply _regionXYWH_throw in H.
      * now apply _regionXYWH_throw in H.
  - discriminate.
Qed.

Lemma size_throw_unchanged v this e this' :
  size v this = (Throw e, this') -> this' = this.
Proof.
  unfold size. intros H.
  apply bind_throw in H as [H | [a [this1 [H1 H]]]].
  { exact (proj2 (lift_result _ _ _ _ H)). }
  apply lift_result in H1 as [_ ->].
  destruct (_ || _); [discriminate|].
  destruct (JS.match_pct is_digit v).
  - unfold bind, get in H. now apply _sizePct_throw in H.
  - now apply _sizeWH_throw in H.
Qed.

Lemma quality_throw_unchanged v this e this' :
  quality v this = (Throw e, this') -> this' = this.
Proof.
  unfold quality. intros H.
  apply bind_throw in H as [H | [a [this1 [H1 H]]]].
  { exact (proj2 (lift_result _ _ _ _ H)). }
  destruct (_ || _); [discriminate|].
  destruct (v =? "gray"); [discriminate|].
  destruct (v =? "bitonal"); discriminate.
Qed.

Lemma format_throw_unchanged v this e this' :
  format v this = (Throw e, this') -> this' = this.
Proof.
  unfold format. intros H.
  apply bind_throw in H as [H | [a [this1 [H1 H]]]].
  { exact (proj2 (lift_result _ _ _ _ H)). }
  discriminate.
Qed.

(** A [rotation] call that throws has either done nothing, or has invoked
    [flop] on a value that starts with [!] and whose remainder does not
    convert to a number. *)
Lemma rotation_throw v this e this' :
  rotation v this = (Throw e, this') ->
  this' = this
  \/ (JS.starts_with "!" v = true
      /\ JS.Number (JS.drop_bang v) = JS.NaN
      /\ this' = emit [Sharp.flop] this).
Proof.
  unfold rotation. intros H.
  apply bind_throw in H as [H | [a [this1 [H1 H]]]].
  { left. exact (proj2 (lift_result _ _ _ _ H)). }
  apply lift_result in H1 as [_ ->].
  destruct (v =? "0"); [discriminate|].
  apply bind_throw in H as [H | [a' [this2 [H1 H]]]].
  { destruct (JS.starts_with "!" v); discriminate. }
  destruct (JS.Number (JS.drop_bang v)) eqn:N; cbn [JS.isNaN] in H;
    [|discriminate].
  unfold throw in H. inversion H; subst.
  destruct (JS.starts_with "!" v); inversion H1; subst; auto.
Qed.

(** On the declared grammar [rotation] does not throw at all. *)
Lemma rotation_declared_normal v this :
  Grammar.accepts Rotation v = true ->
  exists this', rotation v this = (Normal tt, this').
Proof.
  cbn [Grammar.accepts]. intros H.
  destruct (unmarked_cases v) as [[r [-> U]] | U]; rewrite U in H.
  - rewrite (rotation_mirrored _ _ H). eauto.
  - destruct (String.eqb_spec v "0") as [->|N]; [now exists this|].
    rewrite (rotation_plain _ _ H N). eauto.
Qed.

End ThrowFacts.

(* ================================================================== *)
(** * What the lost escape and the capture patterns let through *)
(* ================================================================== *)

Section LooseFacts.

Import Str Regex Transform Transform.Operations.

(** The fraction of [FR] may start with any character that is not a line
    terminator. *)
Lemma Lang_loose a c b :
  digits a -> digits b -> is_line_terminator c = false ->
  Lang (Cat (Plus (Sym CDigit))
            (Opt (Cat (Sym CDot) (Plus (Sym CDigit))))) (a ++ String c b).
Proof.
  intros Ha Hb Hc. constructor; [now apply Lang_D|].
  apply Lang_Opt_some. apply Lang_cons_cat with (s1 := "").
  - constructor. cbn [in_class]. now rewrite Hc.
  - now apply Lang_D.
Qed.

Lemma validate_rotation_loose a c b :
  digits a -> digits b -> is_line_terminator c = false ->
  validate Rotation (a ++ String c b) = Normal true
  /\ validate Rotation ("!" ++ a ++ String c b) = Normal true.
Proof.
  intros Ha Hb Hc. split; apply (validate_Lang _ _ _ validator_rotation);
    cbn [seq].
  - apply Lang_nil_cat; [apply Lang_Opt_none | now apply Lang_loose].
  - constructor; [apply Lang_Opt_some, Lang_char | now apply Lang_loose].
Qed.

(** The declared grammar has the dot and nothing else in that place. *)
Lemma decimal_separator a c b :
  digits a -> is_digit c = false -> c <> "."%char ->
  Grammar.accepts Rotation (a ++ String c b) = false.
Proof.
  intros Ha Hc Hd. cbn [Grammar.accepts].
  assert (Grammar.unmarked (a ++ String c b) = a ++ String c b) as ->.
  { destruct (digits_cons _ Ha) as [d [r [-> [Hdig _]]]].
    cbn [append Grammar.unmarked]. now rewrite (digit_neq d "!"). }
  unfold Grammar.decimal. rewrite span_digits by (apply Ha || exact Hc).
  destruct (Ascii.eqb_spec c "."); [contradiction|].
  now rewrite andb_false_r.
Qed.

(** Digits, a character that is neither a letter, a digit nor a dot, and
    digits do not convert to a number. *)
Lemma Number_loose a c b :
  digits a -> digits b -> is_alnum c = false -> c <> "."%char ->
  JS.Number (a ++ String c b) = JS.NaN.
Proof.
  intros Ha Hb Hc Hd.
  assert (Hnd : is_digit c = false).
  { unfold is_alnum in Hc. apply orb_false_iff in Hc as [Hc _].
    now apply orb_false_iff in Hc as [Hc _]. }
  unfold JS.Number.
  assert (Et : JS.trim_end (JS.trim_start (a ++ String c b)) = a ++ String c b).
  { destruct (digits_cons _ Ha) as [d [r [-> [Hdig _]]]].
    cbn [append]. rewrite (trim_start_digit _ _ Hdig).
    apply (trim_end_digit_last (String d (r ++ String c "")) b) in Hb.
    cbn [append] in Hb. now rewrite append_assoc in Hb. }
  rewrite Et.
  assert (is_empty (a ++ String c b) = false) as ->
      by now destruct (digits_cons _ Ha) as [d [r [-> _]]].
  assert (JS.radix_prefix (a ++ String c b) = None) as ->.
  { destruct (digits_cons _ Ha) as [d [r [-> [_ Hr]]]].
    cbn [append]. apply radix_prefix_none.
    destruct r as [|p r]; cbn [append]; [now right | left].
    unfold all_digits in Hr. simpl in Hr.
    now apply andb_true_iff in Hr as [Hp _]. }
  assert (JS.signed (a ++ String c b) = (1%Z, a ++ String c b)) as ->.
  { destruct (digits_cons _ Ha) as [d [r [-> [Hdig _]]]].
    cbn [append]. now apply signed_digit. }
  unfold JS.decimal_literal. rewrite span_digits by (apply Ha || exact Hnd).
  destruct (Ascii.eqb_spec c "."); [contradiction|].
  rewrite (is_empty_digits _ Ha). cbn [andb JS.exponent].
  now rewrite !(not_letter_neq c) by (auto || reflexivity).
Qed.

(** A mirrored rotation whose numeric part is of that kind passes
    validation, has [flop] invoked, and then throws. *)
Lemma rotation_loose_mirrored a c b this :
  digits a -> digits b ->
  is_line_terminator c = false -> is_alnum c = false -> c <> "."%char ->
  rotation ("!" ++ a ++ String c b) this
  = (Throw (IIIFError ("Invalid rotation value: " ++ "!" ++ a ++ String c b)),
     emit [Sharp.flop] this).
Proof.
  intros Ha Hb Hl Hc Hd.
  rewrite (rotation_valid _ _ (proj2 (validate_rotation_loose _ _ _ Ha Hb Hl)))
    by discriminate.
  cbv zeta. change (JS.starts_with "!" ("!" ++ a ++ String c b)) with true.
  change (JS.drop_bang ("!" ++ a ++ String c b)) with (a ++ String c b).
  now rewrite (Number_loose _ _ _ Ha Hb Hc Hd).
Qed.

(** The capture of [region] ends where the fraction of the last
    percentage begins, so the fraction changes nothing. *)
Lemma region_percent_fraction_ignored x y w h f this :
  digits x -> digits y -> digits w -> digits h -> digits f ->
  region ("pct:" ++ x ++ "," ++ y ++ "," ++ w ++ "," ++ h ++ "." ++ f) this
  = region ("pct:" ++ x ++ "," ++ y ++ "," ++ w ++ "," ++ h) this.
Proof.
  intros Hx Hy Hw Hh Hf.
  assert (Hd : Grammar.decimal (h ++ "." ++ f) = true).
  { unfold Grammar.decimal.
    rewrite span_digits by (apply Hh || reflexivity).
    rewrite (is_empty_digits _ Hh). cbn. now apply digits_integer. }
  assert (V1 : validate Region
                 ("pct:" ++ x ++ "," ++ y ++ "," ++ w ++ "," ++ h ++ "." ++ f)
               = Normal true).
  { apply validate_region_percent; try (now apply digits_decimal). exact Hd. }
  assert (V2 : validate Region ("pct:" ++ x ++ "," ++ y ++ "," ++ w ++ "," ++ h)
               = Normal true).
  { apply validate_region_percent; now apply digits_decimal. }
  rewrite (region_rectangle _ this V1), (region_rectangle _ this V2)
    by discriminate.
  rewrite (match_pct_four x y w h Hx Hy Hw Hh).
  assert (JS.match_pct digit_or_comma
            ("pct:" ++ x ++ "," ++ y ++ "," ++ w ++ "," ++ h ++ "." ++ f)
          = Some (x ++ "," ++ y ++ "," ++ w ++ "," ++ h)) as ->;
    [|reflexivity].
  set (rest := x ++ "," ++ y ++ "," ++ w ++ "," ++ h).
  assert (E : span digit_or_comma (rest ++ "." ++ f) = (rest, "." ++ f)).
  { apply span_run; [|reflexivity]. unfold rest.
    rewrite !forallb_string_app.
    rewrite (digits_digit_or_comma x (proj2 Hx)),
      (digits_digit_or_comma y (proj2 Hy)),
      (digits_digit_or_comma w (proj2 Hw)),
      (digits_digit_or_comma h (proj2 Hh)).
    reflexivity. }
  replace (x ++ "," ++ y ++ "," ++ w ++ "," ++ h ++ "." ++ f)
    with (rest ++ "." ++ f)
    by (unfold rest; now rewrite !append_assoc).
  unfold JS.match_pct.
  change (strip_prefix "pct:" ("pct:" ++ rest ++ "." ++ f))
    with (Some (rest ++ "." ++ f)).
  cbv beta iota zeta. rewrite E. cbn [fst]. unfold rest.
  destruct (digits_cons _ Hx) as [c [r [-> _]]]. reflexivity.
Qed.

(** The capture of [size] ends where the fraction of the percentage
    begins, so the fraction changes nothing. *)
Lemma size_percent_fraction_ignored p f this :
  digits p -> digits f ->
  size ("pct:" ++ p ++ "." ++ f) this = size ("pct:" ++ p) this.
Proof.
  intros Hp Hf.
  assert (Hd : Grammar.decimal (p ++ "." ++ f) = true).
  { unfold Grammar.decimal.
    rewrite span_digits by (apply Hp || reflexivity).
    rewrite (is_empty_digits _ Hp). cbn. now apply digits_integer. }
  unfold size, bind, lift.
  rewrite (validate_size_percent _ Hd),
    (validate_size_percent _ (digits_decimal _ Hp)).
  change (("pct:" ++ p ++ "." ++ f =? "full") || ("pct:" ++ p ++ "." ++ f =? "max"))
    with false.
  change (("pct:" ++ p =? "full") || ("pct:" ++ p =? "max")) with false.
  cbv iota. rewrite (match_pct_one _ Hp).
  assert (JS.match_pct is_digit ("pct:" ++ p ++ "." ++ f) = Some p) as ->;
    [|reflexivity].
  unfold JS.match_pct.
  change (strip_prefix "pct:" ("pct:" ++ p ++ "." ++ f))
    with (Some (p ++ "." ++ f)).
  cbv beta iota zeta. rewrite span_digits by (apply Hp || reflexivity).
  cbn [fst]. now rewrite (is_empty_digits _ Hp).
Qed.

(** [region('square')] on a [w] by [h] image taller than wide by an odd
    number: the crop starts one row below [floor(|w - h| / 2)]. *)
Lemma region_square_portrait_odd w h p :
  (0 < w)%Z -> (w < h)%Z -> Z.even (w - h) = false ->
  region "square"
    {| dims := {| width := JS.of_Z w; height := JS.of_Z h |}; pipeline := p |}
  = (Normal tt,
     {| dims := {| width := JS.of_Z w; height := JS.of_Z w |};
        pipeline :=
          Sharp.invoke
            (Sharp.extract
               {| Sharp.Region.left := zero;
                  Sharp.Region.top := JS.Num (JS.of_Z (Z.abs (w - h) / 2 + 1));
                  Sharp.Region.width := JS.Num (JS.of_Z w);
                  Sharp.Region.height := JS.Num (JS.of_Z w) |})
            p |}).
Proof.
  intros Pw L O. unfold region, bind, lift.
  change (validate Region "square") with (Normal true).
  cbn [String.eqb Ascii.eqb Bool.eqb]. unfold get. cbn [dims].
  rewrite regionSquare_integers.
  destruct (Z.eqb_spec w h); [lia|].
  destruct (Z.ltb_spec h w); [lia|].
  rewrite (proj2 (square_offset_cases w h) L O), Z.min_l by lia.
  unfold emit, set_dims.
  cbn [fold_left pipeline dims Sharp.invoke Sharp.widthPre Sharp.heightPre
       Sharp.Region.width Sharp.Region.height width height].
  now rewrite !ifPositive_of_Z by lia.
Qed.

End LooseFacts.

(* ================================================================== *)
(** * The forms of a validated value *)
(* ================================================================== *)

Section FormFacts.

Import Str Regex Transform Transform.Operations.

Lemma Lang_sym_inv p s :
  Lang (Sym p) s -> exists c, s = String c "" /\ in_class p c = true.
Proof. intros H. inversion H; subst. eauto. Qed.

Lemma Lang_star_digits s : Lang (Star (Sym CDigit)) s -> all_digits s = true.
Proof.
  intros H. remember (Star (Sym CDigit)) as r eqn:E.
  induction H; try discriminate; [reflexivity|].
  inversion E; subst.
  apply Lang_sym_inv in H as [c [-> Hc]].
  unfold all_digits in *. cbn. cbn in Hc. rewrite Hc. now apply IHLang2.
Qed.

Lemma Lang_D_digits s : Lang (Plus (Sym CDigit)) s -> digits s.
Proof.
  intros H. inversion H as [| |? ? s1 s2 H1 H2| | | |]; subst.
  apply Lang_sym_inv in H1 as [c [-> Hc]]. apply Lang_star_digits in H2.
  split; [discriminate|].
  unfold all_digits in *. cbn. cbn in Hc. now rewrite Hc.
Qed.

Lemma Lang_char_inv c r s :
  Lang (Cat (Sym (CChar c)) r) s -> exists s', s = String c s' /\ Lang r s'.
Proof.
  intros H. inversion H as [| |? ? s1 s2 H1 H2| | | |]; subst.
  apply Lang_sym_inv in H1 as [c' [-> Hc]].
  cbn [in_class] in Hc. apply Ascii.eqb_eq in Hc. subst.
  exists s2. split; [reflexivity | exact H2].
Qed.

Lemma Lang_D_then r s :
  Lang (Cat (Plus (Sym CDigit)) r) s ->
  exists d s', s = d ++ s' /\ digits d /\ Lang r s'.
Proof.
  intros H. inversion H as [| |? ? s1 s2 H1 H2| | | |]; subst.
  exists s1, s2. auto using Lang_D_digits.
Qed.

Lemma Lang_opt_bang r s :
  Lang (Cat (Opt (Sym (CChar "!"))) r) s ->
  Lang r s \/ exists s', s = "!" ++ s' /\ Lang r s'.
Proof.
  intros H. inversion H as [| |? ? s1 s2 H1 H2| | | |]; subst.
  inversion H1; subst.
  - right. match goal with
           | H : Lang (Sym _) _ |- _ => apply Lang_sym_inv in H as [c [-> Hc]]
           end.
    cbn [in_class] in Hc. apply Ascii.eqb_eq in Hc. subst.
    exists s2. split; [reflexivity | exact H2].
  - left. match goal with H : Lang Eps _ |- _ => inversion H; subst end.
    exact H2.
Qed.



End FormFacts.

(* ================================================================== *)
(** * The properties of the specification *)
(* ================================================================== *)

Section Properties.

Import Str Regex Transform Transform.Operations.

Local Abbreviation image w h :=
  (constructor {| width := JS.of_Z w; height := JS.of_Z h |}).

(** C1. [validate] does not accept exactly the declared grammar: the
    dot of [FR] is unescaped in the pattern, so the fraction of a
    decimal may start with any character.  [1x2] passes as a rotation
    although it is not an optional [!] followed by a decimal, and so do
    the percentage forms of [region] and [size] with such a field; a
    value like [x] is refused with the error that names the kind and the
    value. *)
Theorem validate_rotation_unescaped_dot :
  pattern Rotation = "^(\!?\d+(?:.\d+)?)$"
  /\ validate Rotation "1x2" = Normal true
  /\ Grammar.accepts Rotation "1x2" = false
  /\ validate Region "pct:1x2,3,4,5" = Normal true
  /\ Grammar.accepts Region "pct:1x2,3,4,5" = false
  /\ validate Size "pct:1x2" = Normal true
  /\ Grammar.accepts Size "pct:1x2" = false
  /\ validate Rotation "x" = Throw (IIIFError "Invalid rotation: x").
Proof. repeat split. Qed.

(** C2. A [rotation] call can throw after it has invoked [flop]: [!1x2]
    passes validation, [flop] is invoked on the leading [!], and only
    then the conversion of [1x2] gives NaN and the call throws. *)
Theorem rotation_flop_before_throw (this : t) :
  validate Rotation "!1x2" = Normal true
  /\ rotation "!1x2" this
     = (Throw (IIIFError "Invalid rotation value: !1x2"),
        emit [Sharp.flop] this)
  /\ Sharp.calls (pipeline (emit [Sharp.flop] this))
     = (Sharp.calls (pipeline this) ++ [Sharp.flop])%list.
Proof. repeat split. Qed.

(** C3. On an image taller than wide by an odd number of pixels the
    offset of the square crop is the half difference rounded up, not
    down: [Math.abs] is applied after [Math.floor].  On 100 by 201 the
    crop starts at row 51, where [floor(|100 - 201| / 2)] is 50. *)
Theorem regionSquare_portrait_offset :
  region "square" (image 100 201)
  = (Normal tt,
     {| dims := {| width := JS.of_Z 100; height := JS.of_Z 100 |};
        pipeline :=
          Sharp.invoke
            (Sharp.extract
               {| Sharp.Region.left := JS.Num (JS.of_Z 0);
                  Sharp.Region.top := JS.Num (JS.of_Z 51);
                  Sharp.Region.width := JS.Num (JS.of_Z 100);
                  Sharp.Region.height := JS.Num (JS.of_Z 100) |})
            Sharp.create |})
  /\ (Z.abs (100 - 201) / 2 = 50)%Z.
Proof. split; reflexivity. Qed.

(** C4. The pattern that captures the percentages of [pct:x,y,w,h] stops
    at the first character that is neither a digit nor a comma, so a
    fraction and all that follows are lost.  For [pct:10,10,50,50.9] on
    200 by 100 the height is taken as 50%, 50 pixels, where 50.9% of
    100 rounds to 51. *)
Theorem regionPct_fraction_dropped :
  validate Region "pct:10,10,50,50.9" = Normal true
  /\ JS.match_pct digit_or_comma "pct:10,10,50,50.9" = Some "10,10,50,50"
  /\ region "pct:10,10,50,50.9" (image 200 100)
     = (Normal tt,
        {| dims := {| width := JS.of_Z 100; height := JS.of_Z 50 |};
           pipeline :=
             Sharp.invoke
               (Sharp.extract
                  {| Sharp.Region.left := JS.Num (JS.of_Z 20);
                     Sharp.Region.top := JS.Num (JS.of_Z 10);
                     Sharp.Region.width := JS.Num (JS.of_Z 100);
                     Sharp.Region.height := JS.Num (JS.of_Z 50) |})
               Sharp.create |})
  /\ JS.Math.round
       (JS.mul (JS.of_Z 100) (JS.div_lit (JS.fin (Grammar.decimal_value "50.9")) 100))
     = JS.of_Z 51.
Proof. repeat split. Qed.





(** C7. The pattern that captures the percentage of [pct:P] stops at
    the first character that is not a digit, so the fraction of [P] is
    lost: [pct:0.5] is refused as if it were [0], and [pct:150.9] of a
    width of 100 asks for 150 pixels, where 150.9 rounds to 151. *)
Theorem sizePct_fraction_dropped (this : t) :
  validate Size "pct:0.5" = Normal true
  /\ size "pct:0.5" this = (Throw (IIIFError "Invalid resize %: 0"), this)
  /\ size "pct:150.9" (image 100 100)
     = (Normal tt,
        emit [Sharp.resize {| Sharp.Resize.width := JS.Num (JS.of_Z 150);
                              Sharp.Resize.height := JS.Null;
                              Sharp.Resize.fit := Sharp.cover |}]
             (image 100 100))
  /\ JS.Math.round
       (JS.mul (JS.of_Z 100) (JS.div_lit (JS.fin (Grammar.decimal_value "150.9")) 100))
     = JS.of_Z 151.
Proof. repeat split. Qed.



(** C9. The short cut of [rotation] is taken for the string [0] and for
    no other value that passes validation.  In particular [!0] has
    [flop] and then [rotate(0)] invoked, and [0.0] has [rotate(0)]
    invoked. *)
Theorem rotation_zero_shortcut v (this : t) :
  validate Rotation v = Normal true ->
  (rotation v this = (Normal tt, this) <-> v = "0")
  /\ rotation "!0" this
     = (Normal tt, emit [Sharp.flop; Sharp.rotate (JS.of_Z 0)] this)
  /\ rotation "0.0" this = (Normal tt, emit [Sharp.rotate (JS.of_Z 0)] this).
Proof.
  intros Hv. split; [split|split; reflexivity].
  - intros H. destruct (String.eqb_spec v "0") as [E|N]; [exact E|].
    exfalso. rewrite (rotation_valid _ _ Hv N) in H. cbv zeta in H.
    destruct (JS.isNaN (JS.Number (JS.drop_bang v))); [discriminate|].
    inversion H as [E]. now apply emit_changes in E.
  - intros ->. reflexivity.
Qed.

(** [!0] passes validation and does not take the short cut. *)
Lemma rotation_zero_shortcut_witness :
  rotation "!0" (image 200 100) <> (Normal tt, image 200 100)
  /\ rotation "!0" (image 200 100)
     = (Normal tt,
        emit [Sharp.flop; Sharp.rotate (JS.of_Z 0)] (image 200 100)).
Proof.
  pose proof (rotation_zero_shortcut "!0" (image 200 100) eq_refl)
    as [H1 [H2 _]].
  split; [|exact H2].
  intros E. apply H1 in E. discriminate E.
Defined.



End Properties.

(* ================================================================== *)
(** * The language of the validators *)
(* ================================================================== *)

Section AcceptedFacts.

Import Str Regex Transform Transform.Operations.

Local Abbreviation D := (Plus (Sym CDigit)).
Local Abbreviation Frac := (Opt (Cat (Sym CDot) (Plus (Sym CDigit)))).

Lemma Lang_frac_inv s :
  Lang Frac s ->
  s = "" \/ exists c b,
              is_line_terminator c = false /\ digits b /\ s = String c b.
Proof.
  intros H. inversion H as [| | |? ? ? P|? ? ? P| |]; subst.
  - right. inversion P as [| |? ? s1 s2 H1 H2| | | |]; subst.
    apply Lang_sym_inv in H1 as [c [-> Hc]]. cbn [in_class] in Hc.
    apply negb_true_iff in Hc. apply Lang_D_digits in H2.
    exists c, s2. auto.
  - left. now inversion P.
Qed.

Lemma Lang_frac c b :
  is_line_terminator c = false -> digits b -> Lang Frac (String c b).
Proof.
  intros Hc Hb. apply Lang_Opt_some. apply Lang_cons_cat with (s1 := "").
  - constructor. cbn [in_class]. now rewrite Hc.
  - now apply Lang_D.
Qed.

Lemma Lang_FR_then x r s :
  Shape.loose x -> Lang r s -> Lang (Cat D (Cat Frac r)) (x ++ s).
Proof.
  intros [a [Ha [-> | [c [b [Hc [Hb ->]]]]]]] Hs.
  - constructor; [now apply Lang_D|].
    apply Lang_nil_cat; [apply Lang_Opt_none | exact Hs].
  - rewrite append_assoc. constructor; [now apply Lang_D|].
    constructor; [now apply Lang_frac | exact Hs].
Qed.

Lemma Lang_FR_then_inv r s :
  Lang (Cat D (Cat Frac r)) s ->
  exists x s', Shape.loose x /\ s = x ++ s' /\ Lang r s'.
Proof.
  intros H. apply Lang_D_then in H as [a [t [-> [Ha H]]]].
  inversion H as [| |? ? s1 s2 H1 H2| | | |]; subst.
  apply Lang_frac_inv in H1 as [-> | [c [b [Hc [Hb ->]]]]].
  - exists a, s2. repeat split; [|exact H2]. exists a. auto.
  - exists (a ++ String c b), s2. repeat split.
    + exists a. split; [exact Ha|]. right. exists c, b. auto.
    + now rewrite append_assoc.
    + exact H2.
Qed.

Lemma Lang_FR x : Shape.loose x -> Lang (Cat D Frac) x.
Proof.
  intros [a [Ha [-> | [c [b [Hc [Hb ->]]]]]]].
  - rewrite <- (append_nil_r a).
    constructor; [now apply Lang_D | apply Lang_Opt_none].
  - constructor; [now apply Lang_D | now apply Lang_frac].
Qed.

Lemma Lang_FR_inv s : Lang (Cat D Frac) s -> Shape.loose s.
Proof.
  intros H. apply Lang_D_then in H as [a [t [-> [Ha H]]]].
  apply Lang_frac_inv in H as [-> | [c [b [Hc [Hb ->]]]]]; exists a;
    (split; [exact Ha|]).
  - left. apply append_nil_r.
  - right. exists c, b. auto.
Qed.

Lemma Lang_comma_inv r s :
  Lang (Cat (Sym (CChar ",")) r) s -> exists s', s = "," ++ s' /\ Lang r s'.
Proof.
  intros H. apply Lang_char_inv in H as [s' [-> H]].
  exists s'. split; [reflexivity | exact H].
Qed.

(** Whatever [validate] does not accept it refuses with the message that
    names the kind and the value. *)
Lemma validate_cases type v :
  validate type v = Normal true
  \/ validate type v = Throw (IIIFError ("Invalid " ++ name type ++ ": " ++ v)).
Proof.
  unfold validate. destruct (validator_defined type) as [re ->].
  destruct (test re v); auto.
Qed.

Lemma loose_digits d : digits d -> Shape.loose d.
Proof. intros H. exists d. auto. Qed.

End AcceptedFacts.

(* ================================================================== *)
(** * Further properties of the validators *)
(* ================================================================== *)

Section ValidatorProperties.

Import Str Regex Transform Transform.Operations.

(** X1. The values [validate] accepts as a region are exactly [full],
    [square], [pct:] followed by four comma-separated fields of the shape
    [FR] matches (digits, then possibly any one character but a line
    terminator and digits), and four comma-separated runs of digits. *)
Theorem accepted_region v :
  validate Region v = Normal true
  <-> v = "full" \/ v = "square"
      \/ (exists x y w h,
            Shape.loose x /\ Shape.loose y /\ Shape.loose w /\ Shape.loose h
            /\ v = "pct:" ++ x ++ "," ++ y ++ "," ++ w ++ "," ++ h)
      \/ (exists x y w h,
            digits x /\ digits y /\ digits w /\ digits h
            /\ v = x ++ "," ++ y ++ "," ++ w ++ "," ++ h).
Proof.
  split.
  - intros H. apply (validate_Lang _ _ _ validator_region) in H.
    cbn [alts] in H.
    apply Lang_alt_lit in H; [|discriminate]. destruct H as [-> | H]; [auto|].
    apply Lang_alt_lit in H; [|discriminate]. destruct H as [-> | H]; [auto|].
    right. right. inversion H as [| | |? ? ? P|? ? ? P| |]; subst; clear H.
    + left. cbn [seq chars map list_ascii_of_string app] in P.
      do 4 (apply Lang_char_inv in P as [? [-> P]]).
      apply Lang_FR_then_inv in P as [x [? [Hx [-> P]]]].
      apply Lang_comma_inv in P as [? [-> P]].
      apply Lang_FR_then_inv in P as [y [? [Hy [-> P]]]].
      apply Lang_comma_inv in P as [? [-> P]].
      apply Lang_FR_then_inv in P as [w [? [Hw [-> P]]]].
      apply Lang_comma_inv in P as [h [-> P]].
      apply Lang_FR_inv in P.
      exists x, y, w, h. repeat (split; [assumption|]). reflexivity.
    + right. cbn [seq] in P.
      apply Lang_D_then in P as [x [? [-> [Hx P]]]].
      apply Lang_comma_inv in P as [? [-> P]].
      apply Lang_D_then in P as [y [? [-> [Hy P]]]].
      apply Lang_comma_inv in P as [? [-> P]].
      apply Lang_D_then in P as [w [? [-> [Hw P]]]].
      apply Lang_comma_inv in P as [h [-> P]].
      apply Lang_D_digits in P.
      exists x, y, w, h. repeat (split; [assumption|]). reflexivity.
  - intros [-> | [-> | [[x [y [w [h [Hx [Hy [Hw [Hh ->]]]]]]]]
                       | [x [y [w [h [Hx [Hy [Hw [Hh ->]]]]]]]]]]].
    + reflexivity.
    + reflexivity.
    + apply (validate_Lang _ _ _ validator_region).
      cbn [alts seq chars map list_ascii_of_string app].
      do 2 apply LAltR. apply LAltL.
      cbn [append]. do 4 apply Lang_char_then.
      repeat (apply Lang_FR_then; [assumption | apply Lang_comma]).
      now apply Lang_FR.
    + now apply validate_region_pixels.
Qed.

(** X2. The values [validate] accepts as a size are exactly [full],
    [max], [pct:] followed by one field of the shape [FR] matches, digits
    followed by a comma, a comma followed by digits, and two runs of
    digits around a comma with an optional leading [!]. *)
Theorem accepted_size v :
  validate Size v = Normal true
  <-> v = "full" \/ v = "max"
      \/ (exists p, Shape.loose p /\ v = "pct:" ++ p)
      \/ (exists i, digits i /\ (v = i ++ "," \/ v = "," ++ i))
      \/ (exists w h, digits w /\ digits h
                      /\ (v = w ++ "," ++ h \/ v = "!" ++ w ++ "," ++ h)).
Proof.
  split.
  - intros H. apply (validate_Lang _ _ _ validator_size) in H.
    cbn [alts] in H.
    apply Lang_alt_lit in H; [|discriminate]. destruct H as [-> | H]; [auto|].
    apply Lang_alt_lit in H; [|discriminate]. destruct H as [-> | H]; [auto|].
    right. right. inversion H as [| | |? ? ? P|? ? ? P| |]; subst; clear H.
    { left. cbn [seq chars map list_ascii_of_string app] in P.
      do 4 (apply Lang_char_inv in P as [? [-> P]]).
      apply Lang_FR_inv in P. eexists. split; [exact P | reflexivity]. }
    right.
    inversion P as [| | |? ? ? Q|? ? ? Q| |]; subst; clear P.
    { left. cbn [seq] in Q.
      apply Lang_D_then in Q as [i [? [-> [Hi Q]]]].
      apply Lang_sym_inv in Q as [c [-> Hc]].
      cbn [in_class] in Hc. apply Ascii.eqb_eq in Hc. subst. eauto. }
    inversion Q as [| | |? ? ? R|? ? ? R| |]; subst; clear Q.
    { left. cbn [seq] in R.
      apply Lang_char_inv in R as [i [-> R]]. apply Lang_D_digits in R.
      eauto. }
    right. cbn [seq] in R.
    apply Lang_opt_bang in R as [R | [s' [-> R]]];
      apply Lang_D_then in R as [w [? [-> [Hw R]]]];
      apply Lang_char_inv in R as [h [-> R]];
      apply Lang_D_digits in R; exists w, h; auto.
  - intros [-> | [-> | [[p [Hp ->]] | [[i [Hi [-> | ->]]]
                                      | [w [h [Hw [Hh [-> | ->]]]]]]]]].
    + reflexivity.
    + reflexivity.
    + apply (validate_Lang _ _ _ validator_size).
      cbn [alts seq chars map list_ascii_of_string app].
      do 2 apply LAltR. apply LAltL.
      cbn [append]. do 4 apply Lang_char_then. now apply Lang_FR.
    + now apply validate_size_width.
    + now apply validate_size_height.
    + now apply validate_size_both.
    + now apply validate_size_inside.
Qed.

(** X3. The values [validate] accepts as a rotation are exactly the
    strings of the shape [FR] matches, with an optional leading [!]: the
    character after the first run of digits need not be a dot. *)
Theorem accepted_rotation v :
  validate Rotation v = Normal true
  <-> exists s, Shape.loose s /\ (v = s \/ v = "!" ++ s).
Proof.
  split.
  - intros H. apply (validate_Lang _ _ _ validator_rotation) in H.
    cbn [seq] in H.
    apply Lang_opt_bang in H as [H | [s [-> H]]]; apply Lang_FR_inv in H; eauto.
  - intros [s [Hs [-> | ->]]]; apply (validate_Lang _ _ _ validator_rotation);
      cbn [seq].
    + apply Lang_nil_cat; [apply Lang_Opt_none | now apply Lang_FR].
    + constructor; [apply Lang_Opt_some, Lang_char | now apply Lang_FR].
Qed.

(** X4. The qualities and the formats [validate] accepts are exactly the
    members of the exported lists [Qualities] and [Formats], and a value
    outside them is refused with the message that names the kind and the
    value. *)
Theorem accepted_exports v :
  (validate Quality v = Normal true
   <-> exists l, Exports.Qualities = inl l /\ In v l)
  /\ (validate Format v = Normal true
      <-> exists l, Exports.Formats = inl l /\ In v l)
  /\ (validate Quality v = Normal true
      \/ validate Quality v = Throw (IIIFError ("Invalid quality: " ++ v)))
  /\ (validate Format v = Normal true
      \/ validate Format v = Throw (IIIFError ("Invalid format: " ++ v))).
Proof.
  assert (K : forall l, Grammar.one_of l v = true <-> In v l).
  { intros l. unfold Grammar.one_of. rewrite existsb_exists. split.
    - intros [x [Hx E]]. apply String.eqb_eq in E. now subst.
    - intros H. exists v. split; [exact H | apply String.eqb_refl]. }
  split; [|split; [|split]].
  - rewrite (validate_keywords Quality v (or_introl eq_refl)).
    cbn [Grammar.accepts]. rewrite K. split.
    + intros H. eexists. split; [reflexivity | exact H].
    + intros [l [E H]]. inversion E; subst. exact H.
  - rewrite (validate_keywords Format v (or_intror eq_refl)).
    cbn [Grammar.accepts]. rewrite K. split.
    + intros H. eexists. split; [reflexivity | exact H].
    + intros [l [E H]]. inversion E; subst. exact H.
  - apply (validate_cases Quality).
  - apply (validate_cases Format).
Qed.

End ValidatorProperties.

(* ================================================================== *)
(** * The state a call leaves *)
(* ================================================================== *)

Section StateFacts.

Import Str Regex Transform Transform.Operations.

Lemma emit_one d this :
  {| dims := dims this; pipeline := Sharp.invoke d (pipeline this) |}
  = emit [d] this.
Proof. reflexivity. Qed.

(** [region]: nothing when it throws; otherwise at most one [extract],
    and the tracked dimensions read back from the pipeline. *)
Lemma region_state v this :
  region v this = (Throw (IIIFError ("Invalid region: " ++ v)), this)
  \/ region v this = (Throw zero_area, this)
  \/ exists p',
       (p' = pipeline this
        \/ exists params, p' = Sharp.invoke (Sharp.extract params) (pipeline this))
       /\ region v this
          = (Normal tt,
             {| dims := {| width := ifPositive (Sharp.widthPre p')
                                               (width (dims this));
                           height := ifPositive (Sharp.heightPre p')
                                                (height (dims this)) |};
                pipeline := p' |}).
Proof.
  unfold region, bind, lift.
  destruct (validate_cases Region v) as [-> | ->]; [|now left].
  destruct (v =? "full").
  { right. right. exists (pipeline this). split; [now left | reflexivity]. }
  destruct (v =? "square").
  { right. right. unfold get, _regionSquare.
    destruct (negb _).
    - eexists. split; [right; eexists; reflexivity | reflexivity].
    - exists (pipeline this). split; [now left | reflexivity]. }
  destruct (JS.match_pct digit_or_comma v);
    unfold get, _regionPct, _regionXYWH;
    match goal with
    | |- context [xywh_params ?a] => generalize (xywh_params a)
    end;
    intros params; destruct (_ || _); auto;
    right; right; eexists;
    (split; [right; eexists; reflexivity | reflexivity]).
Qed.

Lemma _sizeWH_state a this :
  _sizeWH a this = (Throw zero_size, this)
  \/ exists p, _sizeWH a this = (Normal tt, emit [Sharp.resize p] this).
Proof.
  unfold _sizeWH. destruct (_ || _); [now left|].
  right. eexists. reflexivity.
Qed.

(** [size]: nothing when it throws or for [full] and [max]; otherwise
    one [resize]. *)
Lemma size_state v this :
  (exists e, size v this = (Throw e, this))
  \/ size v this = (Normal tt, this)
  \/ exists p, size v this = (Normal tt, emit [Sharp.resize p] this).
Proof.
  unfold size, bind, lift.
  destruct (validate_cases Size v) as [-> | ->]; [|left; eauto].
  destruct (_ || _); [right; now left|].
  destruct (JS.match_pct is_digit v) as [captured|].
  - unfold get, _sizePct.
    destruct (_ || _); [left; eexists; reflexivity|].
    match goal with
    | |- context [_sizeWH ?a ?t] =>
        destruct (_sizeWH_state a t) as [E | [p E]]
    end; rewrite E; [left; eauto | right; right; eauto].
  - destruct (_sizeWH_state (inl v) this) as [E | [p E]];
      rewrite E; [left; eauto | right; right; eauto].
Qed.

(** [rotation]: nothing, [flop], [rotate], or [flop] and then [rotate]. *)
Lemma rotation_state v this :
  exists ds,
    snd (rotation v this) = emit ds this
    /\ (ds = [] \/ ds = [Sharp.flop]
        \/ exists n, ds = [Sharp.rotate n] \/ ds = [Sharp.flop; Sharp.rotate n]).
Proof.
  unfold rotation, bind, lift.
  destruct (validate_cases Rotation v) as [-> | ->];
    [|exists []; split; [symmetry; apply emit_nil | now left]].
  destruct (v =? "0");
    [exists []; split; [symmetry; apply emit_nil | now left]|].
  destruct (JS.starts_with "!" v);
    destruct (JS.Number (JS.drop_bang v)) as [|q]; cbn [JS.isNaN].
  - exists [Sharp.flop]. split; [reflexivity | auto].
  - exists [Sharp.flop; Sharp.rotate (JS.Fin q)]. split; [reflexivity|].
    right. right. eauto.
  - exists []. split; [symmetry; apply emit_nil | now left].
  - exists [Sharp.rotate (JS.Fin q)]. split; [reflexivity|].
    right. right. eauto.
Qed.

Lemma quality_state v this :
  exists ds,
    snd (quality v this) = emit ds this
    /\ (ds = [] \/ ds = [Sharp.grayscale] \/ ds = [Sharp.threshold]).
Proof.
  unfold quality, bind, lift.
  destruct (validate_cases Quality v) as [-> | ->];
    [|exists []; split; [symmetry; apply emit_nil | now left]].
  destruct (_ || _);
    [exists []; split; [symmetry; apply emit_nil | now left]|].
  destruct (v =? "gray"); [exists [Sharp.grayscale]; auto|].
  destruct (v =? "bitonal"); [exists [Sharp.threshold]; auto|].
  exists []; split; [symmetry; apply emit_nil | now left].
Qed.

Lemma format_state v this :
  format v this = (Throw (IIIFError ("Invalid format: " ++ v)), this)
  \/ format v this = (Normal tt, emit [Sharp.toFormat v] this).
Proof.
  unfold format, bind, lift.
  destruct (validate_cases Format v) as [-> | ->]; auto.
Qed.

End StateFacts.

(* ================================================================== *)
(** * Percentages of integer dimensions, and the tracked state *)
(* ================================================================== *)

Section TrackedFacts.

Import Str Regex Transform Transform.Operations.








End TrackedFacts.

(* ================================================================== *)
(** * Further properties of the methods *)
(* ================================================================== *)

Section MethodProperties.

Import Str Regex Transform Transform.Operations.

Local Abbreviation image w h :=
  (constructor {| width := JS.of_Z w; height := JS.of_Z h |}).

(** X5. What [quality] does with every value: nothing for [color] and
    [default], [grayscale] for [gray], [threshold] for [bitonal], and for
    anything else the error that names the kind and the value, with the
    interpreter left as it was. *)
Theorem quality_table v (this : t) :
  quality v this
  = if (v =? "color") || (v =? "default") then (Normal tt, this)
    else if v =? "gray" then (Normal tt, emit [Sharp.grayscale] this)
    else if v =? "bitonal" then (Normal tt, emit [Sharp.threshold] this)
    else (Throw (IIIFError ("Invalid quality: " ++ v)), this).
Proof.
  destruct (String.eqb_spec v "color") as [->|Nc]; [reflexivity|].
  destruct (String.eqb_spec v "default") as [->|Nd]; [reflexivity|].
  destruct (String.eqb_spec v "gray") as [->|Ng]; [reflexivity|].
  destruct (String.eqb_spec v "bitonal") as [->|Nb]; [reflexivity|].
  cbn [orb]. unfold quality, bind, lift.
  destruct (validate_cases Quality v) as [E | ->]; [|reflexivity].
  exfalso. apply (validate_keywords Quality v (or_introl eq_refl)) in E.
  apply one_of_In in E. cbn [In] in E.
  repeat (destruct E as [E|E]; [congruence|]). exact E.
Qed.

(** X6. What [format] does with every value: [toFormat] with the value
    itself for [jpg], [tif], [gif], [png] and [webp], and for anything
    else the error that names the kind and the value, with the
    interpreter left as it was. *)
Theorem format_table v (this : t) :
  format v this
  = if existsb (String.eqb v) ["jpg"; "tif"; "gif"; "png"; "webp"]
    then (Normal tt, emit [Sharp.toFormat v] this)
    else (Throw (IIIFError ("Invalid format: " ++ v)), this).
Proof.
  unfold format, bind, lift.
  destruct (existsb (String.eqb v) ["jpg"; "tif"; "gif"; "png"; "webp"]) eqn:L.
  - rewrite (validate_complete Format v L). reflexivity.
  - destruct (validate_cases Format v) as [E | ->]; [|reflexivity].
    apply (validate_keywords Format v (or_intror eq_refl)) in E.
    cbn [Grammar.accepts] in E. unfold Grammar.one_of in E. congruence.
Qed.

(** X7. A call of [region], [size], [quality] or [format] either
    completes normally or leaves the pipeline and the tracked dimensions
    exactly as they were: these four methods check everything before they
    invoke anything. *)
Theorem throw_leaves_interpreter v (this : t) :
  (fst (region v this) = Normal tt \/ snd (region v this) = this)
  /\ (fst (size v this) = Normal tt \/ snd (size v this) = this)
  /\ (fst (quality v this) = Normal tt \/ snd (quality v this) = this)
  /\ (fst (format v this) = Normal tt \/ snd (format v this) = this).
Proof.
  assert (K : forall m : M unit,
             (forall e this', m this = (Throw e, this') -> this' = this) ->
             fst (m this) = Normal tt \/ snd (m this) = this).
  { intros m H. destruct (m this) as [[[]|e] this'] eqn:E; [now left|].
    right. apply (H e this' eq_refl). }
  repeat split; apply K; intros e this'.
  - apply region_throw_unchanged.
  - apply size_throw_unchanged.
  - apply quality_throw_unchanged.
  - apply format_throw_unchanged.
Qed.

(** X8. What a call can invoke on the pipeline, whatever its value and
    however it completes: [region] nothing or one [extract]; [size]
    nothing or one [resize]; [rotation] nothing, [flop], [rotate], or
    [flop] then [rotate]; [quality] nothing, [grayscale] or [threshold];
    [format] nothing or [toFormat] with its value.  Operations already
    invoked stay, in order, and only [region] changes the tracked
    dimensions. *)
Theorem operations_invoked v (this : t) :
  (exists ds,
     Sharp.calls (pipeline (snd (region v this)))
     = (Sharp.calls (pipeline this) ++ ds)%list
     /\ (ds = [] \/ exists params, ds = [Sharp.extract params]))
  /\ (exists ds,
        snd (size v this) = emit ds this
        /\ (ds = [] \/ exists params, ds = [Sharp.resize params]))
  /\ (exists ds,
        snd (rotation v this) = emit ds this
        /\ (ds = [] \/ ds = [Sharp.flop]
            \/ exists n, ds = [Sharp.rotate n]
                         \/ ds = [Sharp.flop; Sharp.rotate n]))
  /\ (exists ds,
        snd (quality v this) = emit ds this
        /\ (ds = [] \/ ds = [Sharp.grayscale] \/ ds = [Sharp.threshold]))
  /\ (exists ds,
        snd (format v this) = emit ds this
        /\ (ds = [] \/ ds = [Sharp.toFormat v])).
Proof.
  split; [|split; [|split; [|split]]].
  - destruct (region_state v this)
      as [E | [E | [p' [[-> | [params ->]] E]]]]; rewrite E; cbn [snd pipeline].
    + exists []. split; [now rewrite app_nil_r | now left].
    + exists []. split; [now rewrite app_nil_r | now left].
    + exists []. split; [now rewrite app_nil_r | now left].
    + exists [Sharp.extract params]. split; [apply calls_invoke | eauto].
  - destruct (size_state v this) as [[e E] | [E | [p E]]]; rewrite E;
      cbn [snd].
    + exists []. split; [symmetry; apply emit_nil | now left].
    + exists []. split; [symmetry; apply emit_nil | now left].
    + exists [Sharp.resize p]. eauto.
  - apply rotation_state.
  - apply quality_state.
  - destruct (format_state v this) as [E | E]; rewrite E; cbn [snd].
    + exists []. split; [symmetry; apply emit_nil | now left].
    + exists [Sharp.toFormat v]. auto.
Qed.

End MethodProperties.

(* ================================================================== *)
(** * The tracked dimensions stay positive integers *)
(* ================================================================== *)

Section InvariantFacts.

Import Str Regex Transform Transform.Operations.




End InvariantFacts.

Section InvariantProperties.

Import Str Regex Transform Transform.Operations.

Local Abbreviation image w h :=
  (constructor {| width := JS.of_Z w; height := JS.of_Z h |}).



(** X10. On an image of positive integer dimensions [w] by [h] that is
    not square, [region('square')] invokes [extract] on a square of side
    [min(w, h)] that lies inside the image: left and top are not
    negative, one of them is [0], and the square ends at or before the
    right and bottom edges.  The tracked dimensions become that side. *)
Theorem square_inside_image w h p :
  (0 < w)%Z -> (0 < h)%Z -> w <> h ->
  exists left top,
    region "square"
      {| dims := {| width := JS.of_Z w; height := JS.of_Z h |}; pipeline := p |}
    = (Normal tt,
       {| dims := {| width := JS.of_Z (Z.min w h);
                     height := JS.of_Z (Z.min w h) |};
          pipeline :=
            Sharp.invoke
              (Sharp.extract
                 {| Sharp.Region.left := JS.Num (JS.of_Z left);
                    Sharp.Region.top := JS.Num (JS.of_Z top);
                    Sharp.Region.width := JS.Num (JS.of_Z (Z.min w h));
                    Sharp.Region.height := JS.Num (JS.of_Z (Z.min w h)) |})
              p |})
    /\ (0 <= left /\ 0 <= top /\ (left = 0 \/ top = 0)
        /\ left + Z.min w h <= w /\ top + Z.min w h <= h)%Z.
Proof.
  intros Pw Ph N.
  assert (B : (Z.abs ((w - h) / 2) + Z.min w h <= Z.max w h)%Z).
  { destruct (Z.lt_ge_cases h w) as [L | L].
    - rewrite Z.abs_eq by (apply Z.div_pos; lia).
      rewrite Z.min_r, Z.max_l by lia.
      assert ((w - h) / 2 <= w - h)%Z; [|lia].
      apply Z.div_le_upper_bound; lia.
    - rewrite Z.min_l, Z.max_r by lia.
      assert (L' : (w < h)%Z) by lia.
      assert (((w - h) / 2 < 0)%Z) by (apply Z.div_lt_upper_bound; lia).
      assert ((w - h <= (w - h) / 2)%Z).
      { pose proof (Z.mul_div_le (w - h) 2 ltac:(lia)).
        pose proof (Z.mod_pos_bound (w - h) 2 ltac:(lia)).
        pose proof (Z.div_mod (w - h) 2 ltac:(lia)). lia. }
      rewrite Z.abs_neq by lia. lia. }
  unfold region, bind, lift.
  change (validate Region "square") with (Normal true).
  cbn [String.eqb Ascii.eqb Bool.eqb]. unfold get. cbn [dims].
  rewrite regionSquare_integers.
  destruct (Z.eqb_spec w h) as [E | _]; [contradiction|].
  unfold emit, set_dims.
  destruct (Z.ltb_spec h w) as [L | L];
    cbn [fold_left pipeline dims Sharp.invoke Sharp.widthPre Sharp.heightPre
         Sharp.Region.width Sharp.Region.height width height];
    rewrite !ifPositive_of_Z by lia.
  - exists (Z.abs ((w - h) / 2)), 0%Z. split; [reflexivity|].
    pose proof (Z.abs_nonneg ((w - h) / 2)). lia.
  - exists 0%Z, (Z.abs ((w - h) / 2)). split; [reflexivity|].
    pose proof (Z.abs_nonneg ((w - h) / 2)). lia.
Qed.

(** The square of a 100 by 201 image. *)
Lemma square_inside_image_witness :
  exists left top,
    region "square" (image 100 201)
    = (Normal tt,
       {| dims := {| width := JS.of_Z (Z.min 100 201);
                     height := JS.of_Z (Z.min 100 201) |};
          pipeline :=
            Sharp.invoke
              (Sharp.extract
                 {| Sharp.Region.left := JS.Num (JS.of_Z left);
                    Sharp.Region.top := JS.Num (JS.of_Z top);
                    Sharp.Region.width := JS.Num (JS.of_Z (Z.min 100 201));
                    Sharp.Region.height := JS.Num (JS.of_Z (Z.min 100 201)) |})
              Sharp.create |})
    /\ (0 <= left /\ 0 <= top /\ (left = 0 \/ top = 0)
        /\ left + Z.min 100 201 <= 100 /\ top + Z.min 100 201 <= 201)%Z.
Proof. apply (square_inside_image 100 201 Sharp.create); lia. Defined.

End InvariantProperties.

(* ================================================================== *)
(** * Percentages in whole pixels *)
(* ================================================================== *)

Section CapturedFacts.

Import Str Regex Transform Transform.Operations.




End CapturedFacts.

Section PercentProperties.

Import Str Regex Transform Transform.Operations.

Local Abbreviation image w h :=
  (constructor {| width := JS.of_Z w; height := JS.of_Z h |}).

(** X11. In the percentage form of [region] a fraction written after the
    last percentage changes nothing: the call does what it does for the
    value without that fraction, whatever the tracked dimensions. *)
Theorem region_percent_last_fraction x y w h f (this : t) :
  digits x -> digits y -> digits w -> digits h -> digits f ->
  region ("pct:" ++ x ++ "," ++ y ++ "," ++ w ++ "," ++ h ++ "." ++ f) this
  = region ("pct:" ++ x ++ "," ++ y ++ "," ++ w ++ "," ++ h) this.
Proof. apply region_percent_fraction_ignored. Qed.

(** [pct:0,0,50,50.75] is [pct:0,0,50,50]. *)
Lemma region_percent_last_fraction_witness :
  region "pct:0,0,50,50.75" (image 200 100)
  = region "pct:0,0,50,50" (image 200 100).
Proof.
  apply (region_percent_last_fraction "0" "0" "50" "50" "75");
    split; (discriminate || reflexivity).
Defined.



(** X13. In [size('pct:p.f')] the fraction changes nothing: the call
    does what [size('pct:p')] does, whatever the tracked dimensions. *)
Theorem size_percent_fraction p f (this : t) :
  digits p -> digits f ->
  size ("pct:" ++ p ++ "." ++ f) this = size ("pct:" ++ p) this.
Proof. apply size_percent_fraction_ignored. Qed.

(** [pct:33.3] is [pct:33]. *)
Lemma size_percent_fraction_witness :
  size "pct:33.3" (image 200 100) = size "pct:33" (image 200 100).
Proof.
  apply (size_percent_fraction "33" "3");
    split; (discriminate || reflexivity).
Defined.





End PercentProperties.

(* ================================================================== *)
(** * Rotations that are no decimal *)
(* ================================================================== *)

Section LiteralFacts.

Import Str Regex Transform Transform.Operations.

(** Digits, one character and digits have no white space to trim. *)
Lemma trim_loose a c b :
  digits a -> digits b ->
  JS.trim_end (JS.trim_start (a ++ String c b)) = a ++ String c b.
Proof.
  intros Ha Hb. destruct (digits_cons _ Ha) as [d [r [-> [Hdig _]]]].
  cbn [append]. rewrite (trim_start_digit _ _ Hdig).
  apply (trim_end_digit_last (String d (r ++ String c "")) b) in Hb.
  cbn [append] in Hb. now rewrite append_assoc in Hb.
Qed.

Lemma is_empty_loose a r : digits a -> is_empty (a ++ r) = false.
Proof. intros Ha. now destruct (digits_cons _ Ha) as [d [r' [-> _]]]. Qed.

(** The letters that announce a base. *)
Lemma radix_letter p b base r :
  JS.radix_prefix (String "0" (String p b)) = Some (base, r) ->
  r = b /\ is_line_terminator p = false.
Proof.
  unfold JS.radix_prefix. change (negb (Ascii.eqb "0" "0")) with false.
  cbv iota.
  repeat match goal with
         | |- context [Ascii.eqb p ?k] =>
             destruct (Ascii.eqb_spec p k) as [-> | ?]; cbn [orb]
         end;
    intros E; inversion E; split; reflexivity.
Qed.

Lemma Number_radix p b base :
  digits b -> JS.radix_prefix (String "0" (String p b)) = Some (base, b) ->
  JS.Number (String "0" (String p b))
  = match JS.radix_value base b with
    | Some z => JS.of_Z z
    | None => JS.NaN
    end.
Proof.
  intros Hb R. unfold JS.Number.
  assert (D0 : digits "0") by (split; [discriminate | reflexivity]).
  pose proof (trim_loose "0" p b D0 Hb) as T. cbn [append] in T.
  rewrite T. cbn [is_empty]. now rewrite R.
Qed.

(** A run of decimal digits is a hexadecimal numeral. *)
Lemma radix_from_hex b : forall acc,
  all_digits b = true -> exists z, JS.radix_from 16 acc b = Some z.
Proof.
  induction b as [|c b IH]; intros acc H; cbn [JS.radix_from]; [eauto|].
  unfold all_digits in H. cbn [list_ascii_of_string forallb] in H.
  apply andb_true_iff in H as [Hc Hb].
  unfold JS.hex_val. rewrite Hc.
  pose proof (digit_val_range c Hc) as R.
  destruct (Z.ltb_spec (JS.digit_val c) 16); [|lia].
  now apply IH.
Qed.

Lemma Number_exponent a k b :
  digits a -> digits b -> k = "e"%char \/ k = "E"%char ->
  JS.Number (a ++ String k b)
  = JS.of_Z (JS.digits_value a * 10 ^ JS.digits_value b).
Proof.
  intros Ha Hb Hk. unfold JS.Number.
  rewrite (trim_loose a k b Ha Hb), (is_empty_loose a _ Ha).
  assert (Nd : is_digit k = false) by (destruct Hk as [-> | ->]; reflexivity).
  assert (JS.radix_prefix (a ++ String k b) = None) as ->.
  { destruct (digits_cons _ Ha) as [d [r [-> [_ Hr]]]].
    destruct r as [|p r]; cbn [append].
    - unfold JS.radix_prefix.
      destruct (negb (Ascii.eqb d "0")); [reflexivity|].
      destruct Hk as [-> | ->]; reflexivity.
    - apply radix_prefix_none. left.
      unfold all_digits in Hr. cbn [list_ascii_of_string forallb] in Hr.
      now apply andb_true_iff in Hr as [Hp _]. }
  assert (JS.signed (a ++ String k b) = (1%Z, a ++ String k b)) as ->.
  { destruct (digits_cons _ Ha) as [d [r [-> [Hdig _]]]].
    cbn [append]. now apply signed_digit. }
  unfold JS.decimal_literal. rewrite span_digits by (apply Ha || exact Nd).
  assert (Ascii.eqb k "." = false) as -> by (destruct Hk as [-> | ->]; reflexivity).
  rewrite (is_empty_digits _ Ha). cbn [andb JS.exponent].
  assert (Ascii.eqb k "e" || Ascii.eqb k "E" = true) as ->
      by (destruct Hk as [-> | ->]; reflexivity).
  rewrite (signed_digits _ Hb), (is_empty_digits _ Hb), (proj2 Hb).
  cbn [negb andb String.length]. rewrite append_nil_r.
  apply fin_integer.
  pose proof (digits_value_nonneg b (proj2 Hb)) as Nb.
  replace (1 * JS.digits_value b - Z.of_nat 0)%Z with (JS.digits_value b)
    by (cbn [Z.of_nat]; lia).
  rewrite inject_Z_mult, (Zpower_Qpower 10 _ Nb). ring.
Qed.


Lemma ifPositive_twice a b : ifPositive a (ifPositive a b) = ifPositive a b.
Proof. unfold ifPositive. now destruct (JS.is_positive a). Qed.

End LiteralFacts.

Section EdgeProperties.

Import Str Regex Transform Transform.Operations.

Local Abbreviation image w h :=
  (constructor {| width := JS.of_Z w; height := JS.of_Z h |}).

(** X16. A rotation made of digits, one character that is no letter, no
    digit, no dot and no line terminator, and digits passes validation
    but is no number.  Written plainly it throws the error that names
    the rotation value and the interpreter is left as it was; written
    with a leading [!] it throws the same error after [flop] has been
    invoked, and the [flop] stays in the pipeline. *)
Theorem rotation_separator a c b (this : t) :
  digits a -> digits b ->
  is_line_terminator c = false -> is_alnum c = false -> c <> "."%char ->
  validate Rotation (a ++ String c b) = Normal true
  /\ rotation (a ++ String c b) this
     = (Throw (IIIFError ("Invalid rotation value: " ++ a ++ String c b)), this)
  /\ rotation ("!" ++ a ++ String c b) this
     = (Throw (IIIFError ("Invalid rotation value: " ++ "!" ++ a ++ String c b)),
        emit [Sharp.flop] this).
Proof.
  intros Ha Hb Hl Hc Hd.
  pose proof (proj1 (validate_rotation_loose _ _ _ Ha Hb Hl)) as V.
  split; [exact V|]. split; [|now apply rotation_loose_mirrored].
  rewrite (rotation_valid _ this V).
  - cbv zeta. rewrite (starts_with_digit a _ "!" Ha eq_refl).
    rewrite (drop_bang_digit a _ Ha).
    now rewrite (Number_loose _ _ _ Ha Hb Hc Hd).
  - apply String.eqb_neq.
    destruct (digits_cons _ Ha) as [d [r [-> _]]]. cbn [append].
    destruct r; cbn [append String.eqb]; destruct (Ascii.eqb d "0");
      reflexivity.
Qed.

(** [90-45] and [!90-45]. *)
Lemma rotation_separator_witness :
  rotation "90-45" (image 200 100)
  = (Throw (IIIFError "Invalid rotation value: 90-45"), image 200 100)
  /\ rotation "!90-45" (image 200 100)
     = (Throw (IIIFError "Invalid rotation value: !90-45"),
        emit [Sharp.flop] (image 200 100)).
Proof.
  assert (Da : digits "90") by (split; [discriminate | reflexivity]).
  assert (Db : digits "45") by (split; [discriminate | reflexivity]).
  assert (Nd : "-"%char <> "."%char) by discriminate.
  pose proof (rotation_separator "90" "-" "45" (image 200 100)
                Da Db eq_refl eq_refl Nd) as [_ H].
  exact H.
Defined.

(** X17. A rotation written as [0], one of the letters [x], [o], [b]
    (in either case) and digits passes validation and is read as a
    literal in base 16, 8 or 2: [rotate] is invoked with its value, an
    integer below [2^53] being a number held exactly, and when a digit
    is outside the base the call throws the error that names the
    rotation value.  In base 16 every run of digits has a value. *)
Theorem rotation_radix_literal p b base (this : t) :
  digits b ->
  JS.radix_prefix (String "0" (String p b)) = Some (base, b) ->
  validate Rotation (String "0" (String p b)) = Normal true
  /\ (forall z,
        JS.radix_value base b = Some z -> (z < 2 ^ 53)%Z ->
        rotation (String "0" (String p b)) this
        = (Normal tt, emit [Sharp.rotate (JS.of_Z z)] this))
  /\ (JS.radix_value base b = None ->
      rotation (String "0" (String p b)) this
      = (Throw (IIIFError ("Invalid rotation value: " ++ String "0" (String p b))),
         this))
  /\ (base = 16%Z -> exists z, JS.radix_value base b = Some z).
Proof.
  intros Hb R.
  destruct (radix_letter p b base b R) as [_ Hl].
  assert (D0 : digits "0") by (split; [discriminate | reflexivity]).
  pose proof (proj1 (validate_rotation_loose "0" p b D0 Hb Hl)) as V.
  cbn [append] in V.
  assert (E : rotation (String "0" (String p b)) this
              = match JS.radix_value base b with
                | Some z => (Normal tt, emit [Sharp.rotate (JS.of_Z z)] this)
                | None =>
                    (Throw (IIIFError ("Invalid rotation value: "
                                       ++ String "0" (String p b))), this)
                end).
  { rewrite (rotation_valid _ this V) by discriminate. cbv zeta.
    change (JS.starts_with "!" (String "0" (String p b))) with false.
    change (JS.drop_bang (String "0" (String p b)))
      with (String "0" (String p b)).
    rewrite (Number_radix p b base Hb R).
    destruct (JS.radix_value base b); reflexivity. }
  split; [exact V|]. split; [|split].
  - intros z Hz _. now rewrite E, Hz.
  - intros Hz. now rewrite E, Hz.
  - intros ->. unfold JS.radix_value. rewrite (is_empty_digits _ Hb).
    apply radix_from_hex, Hb.
Qed.

(** [0x10] turns by 16 degrees. *)
Lemma rotation_radix_literal_witness :
  rotation "0x10" (image 200 100)
  = (Normal tt, emit [Sharp.rotate (JS.of_Z 16)] (image 200 100)).
Proof.
  assert (Db : digits "10") by (split; [discriminate | reflexivity]).
  pose proof (rotation_radix_literal "x" "10" 16 (image 200 100) Db eq_refl)
    as [_ [H _]].
  exact (H 16%Z eq_refl eq_refl).
Defined.

(** X18. A rotation made of digits [a], the letter [e] in either case
    and digits [b] passes validation and is read in exponent notation:
    when [a * 10^b] is below [2^53], a number held exactly, [rotate] is
    invoked with it, after [flop] when the value is written with a
    leading [!]. *)
Theorem rotation_exponent a k b (this : t) :
  digits a -> digits b -> k = "e"%char \/ k = "E"%char ->
  (JS.digits_value a * 10 ^ JS.digits_value b < 2 ^ 53)%Z ->
  let degrees := JS.of_Z (JS.digits_value a * 10 ^ JS.digits_value b) in
  rotation (a ++ String k b) this
  = (Normal tt, emit [Sharp.rotate degrees] this)
  /\ rotation ("!" ++ a ++ String k b) this
     = (Normal tt, emit [Sharp.flop; Sharp.rotate degrees] this).
Proof.
  intros Ha Hb Hk _ degrees. subst degrees.
  assert (Hl : is_line_terminator k = false)
    by (destruct Hk as [-> | ->]; reflexivity).
  destruct (validate_rotation_loose a k b Ha Hb Hl) as [V V'].
  split.
  - rewrite (rotation_valid _ this V).
    + cbv zeta. rewrite (starts_with_digit a _ "!" Ha eq_refl).
      rewrite (drop_bang_digit a _ Ha).
      now rewrite (Number_exponent a k b Ha Hb Hk).
    + apply String.eqb_neq.
      destruct (digits_cons _ Ha) as [d [r [-> _]]]. cbn [append].
      destruct r; cbn [append String.eqb]; destruct (Ascii.eqb d "0");
        reflexivity.
  - rewrite (rotation_valid _ this V') by discriminate. cbv zeta.
    change (JS.starts_with "!" ("!" ++ a ++ String k b)) with true.
    change (JS.drop_bang ("!" ++ a ++ String k b)) with (a ++ String k b).
    now rewrite (Number_exponent a k b Ha Hb Hk).
Qed.

(** [9e1] turns by 90 degrees. *)
Lemma rotation_exponent_witness :
  rotation "9e1" (image 200 100)
  = (Normal tt, emit [Sharp.rotate (JS.of_Z 90)] (image 200 100)).
Proof.
  assert (Da : digits "9") by (split; [discriminate | reflexivity]).
  assert (Db : digits "1") by (split; [discriminate | reflexivity]).
  pose proof (rotation_exponent "9" "e" "1" (image 200 100)
                Da Db (or_introl eq_refl) eq_refl) as [H _].
  exact H.
Defined.



(** X20. [region('full')] changes nothing: a new interpreter is returned
    as it was made, and after any [region] call, whatever its value and
    however it completed, a [region('full')] call leaves the completion,
    the tracked dimensions and the pipeline as that call left them. *)
Theorem region_full_changes_nothing d v (this : t) :
  region "full" (constructor d) = (Normal tt, constructor d)
  /\ (region v ;; region "full")%method this = region v this.
Proof.
  split.
  - destruct d as [wd hd]. reflexivity.
  - unfold bind at 1.
    destruct (region_state v this) as [E | [E | [p' [_ E]]]]; rewrite E;
      try reflexivity.
    change (region "full"
              {| dims := {| width := ifPositive (Sharp.widthPre p')
                                                (width (dims this));
                            height := ifPositive (Sharp.heightPre p')
                                                 (height (dims this)) |};
                 pipeline := p' |})
      with (Normal tt,
            {| dims :=
                 {| width := ifPositive (Sharp.widthPre p')
                              (ifPositive (Sharp.widthPre p') (width (dims this)));
                    height := ifPositive (Sharp.heightPre p')
                               (ifPositive (Sharp.heightPre p')
                                           (height (dims this))) |};
               pipeline := p' |}).
    now rewrite !ifPositive_twice.
Qed.

End EdgeProperties.
